(** * go-opera: strongly-see ancestry index and event emitter

    A shallow embedding of [src/posposet/seeing/strongly.go] and of the
    admission-control part of [src/gossip/emitter.go], with the properties
    the specification states about them.

    Conventions.
    - Go maps are [gmap]s; a [range] over a map visits its keys in an
      unspecified order, which the model fixes to [map_to_list] (members) or
      takes as a list given by the caller (parents, pending transactions).
    - Go slices used as arrays are lists; every index expression is bounds
      checked and raises [IndexOutOfRange] as the Go run time does.
    - A pointer to an ancestry record is the key under which the record is
      stored in [events]: the code stores every record under its own hash
      and never under a second key, so two pointers alias iff their keys
      are equal.  A [nil] pointer is a key without a record.
    - Run-time failures are explicit: see [result]. *)

From Stdlib Require Import ZArith Lia.
From stdpp Require Import gmap list fin_maps.

Local Open Scope Z_scope.

(** ** Outcomes of running Go code *)

Inductive panic : Set :=
| NilDeref          (* nil pointer dereference *)
| IndexOutOfRange   (* slice index out of range *)
| DivideByZero      (* integer divide by zero *)
| Fatal.            (* logger Fatalf: the call that reports a fatal error *)

Inductive result (A : Type) : Type :=
| Ok (a : A)
| Panic (p : panic)
| OutOfFuel.        (* the loop bound of the model was reached *)

Arguments Ok {A} a.
Arguments Panic {A} p.
Arguments OutOfFuel {A}.

#[global] Instance result_ret : MRet result := fun _ a => Ok a.
#[global] Instance result_bind : MBind result := fun _ _ f m =>
  match m with
  | Ok a => f a
  | Panic p => Panic p
  | OutOfFuel => OutOfFuel
  end.

(** [for _, x := range xs { acc = f(acc, x) }] with failures. *)
Fixpoint foldM {A B} (f : A -> B -> result A) (a : A) (xs : list B) : result A :=
  match xs with
  | [] => Ok a
  | x :: xs' => a' ← f a x; foldM f a' xs'
  end.

(** [xs[i]] and [xs[i] = v] on a slice. *)
Definition index (xs : list Z) (i : nat) : result Z :=
  match xs !! i with
  | Some x => Ok x
  | None => Panic IndexOutOfRange
  end.

Definition assign (xs : list Z) (i : nat) (v : Z) : result (list Z) :=
  if decide (i < length xs)%nat then Ok (<[i := v]> xs) else Panic IndexOutOfRange.

(** Dereference of a possibly nil pointer. *)
Definition deref {A} (p : option A) : result A :=
  match p with
  | Some a => Ok a
  | None => Panic NilDeref
  end.

(** * Package seeing *)

Module Seeing.

(** [hash.Peer] and [hash.Event] are fixed-size byte arrays, read here as
    the number they spell; the all-zero hash is [0]. *)
Abbreviation Peer := N (only parsing).
Abbreviation EventHash := N (only parsing).

Definition IsZero (h : EventHash) : bool := (h =? 0)%N.

(** The fields of [inter.Event] that the index reads.  [Hash] is the value
    of [e.Hash()]; [Index] holds [idx.Event(e.Index)], the only form in which
    the code reads it. *)
Record InterEvent : Type := mkInterEvent {
  Hash : EventHash;
  Creator : Peer;
  Index : Z;
  Parents : list EventHash;   (* in the order the range loop yields them *)
}.

(** [seeing.Event]: the ancestry record. *)
Record Event : Type := mkEvent {
  interEvent : InterEvent;
  CreatorN : nat;
  LowestSees : list Z;
  HighestSeen : list Z;
}.

Definition setCreatorN (e : Event) (n : nat) : Event :=
  mkEvent (interEvent e) n (LowestSees e) (HighestSeen e).
Definition setLowestSees (e : Event) (l : list Z) : Event :=
  mkEvent (interEvent e) (CreatorN e) l (HighestSeen e).
Definition setHighestSeen (e : Event) (h : list Z) : Event :=
  mkEvent (interEvent e) (CreatorN e) (LowestSees e) h.

(** Modelled from the spec: [internal.Members] is declared outside src/.
    The spec describes it as a mapping from validator identity to voting
    weight. *)
Abbreviation Members := (gmap Peer Z) (only parsing).

Record Strongly : Type := mkStrongly {
  members : Members;
  nodes : gmap Peer nat;
  events : gmap EventHash Event;
}.

Definition setEvents (ss : Strongly) (evs : gmap EventHash Event) : Strongly :=
  mkStrongly (members ss) (nodes ss) evs.

Definition Reset (ss : Strongly) (mm : Members) : Strongly :=
  mkStrongly mm ∅ ∅.

Definition New (mm : Members) : Strongly :=
  Reset (mkStrongly ∅ ∅ ∅) mm.

Definition setNodes (ss : Strongly) (e : Event) : Strongly * Event :=
  match nodes ss !! Creator (interEvent e) with
  | Some n => (ss, setCreatorN e n)
  | None =>
      let n := size (nodes ss) in
      (mkStrongly (members ss) (<[Creator (interEvent e) := n]> (nodes ss)) (events ss),
       setCreatorN e n)
  end.

Definition accepts (e : Event) (node : nat) (ref cur : Z) : bool :=
  (cur =? 0) || (ref <? cur) || (Nat.eqb node (CreatorN e) && (cur <=? Index (interEvent e))).

Definition setLowestSeesIfMin (e : Event) (node : nat) (ref : Z) : result (Event * bool) :=
  cur ← index (LowestSees e) node;
  if accepts e node ref cur then
    l ← assign (LowestSees e) node ref;
    Ok (setLowestSees e l, true)
  else Ok (e, false).

(** One run of the inner [for _, event := range toUpdate] loop: the store
    after it and the [next] work list it has built. *)
Fixpoint lowestPass (evs : gmap EventHash Event) (toUpdate : list EventHash)
    (node : nat) (ref : Z) : result (gmap EventHash Event * list EventHash) :=
  match toUpdate with
  | [] => Ok (evs, [])
  | h :: rest =>
      event ← deref (evs !! h);
      upd ← setLowestSeesIfMin event node ref;
      let pushed :=
        if upd.2 : bool
        then filter (λ p, IsZero p = false) (Parents (interEvent upd.1))
        else [] in
      r ← lowestPass (<[h := upd.1]> evs) rest node ref;
      Ok (r.1, pushed ++ r.2)
  end.

(** The outer [for { ... }] loop; [fuel] bounds the number of rounds. *)
Fixpoint lowestLoop (fuel : nat) (evs : gmap EventHash Event) (toUpdate : list EventHash)
    (node : nat) (ref : Z) : result (gmap EventHash Event) :=
  match fuel with
  | O => OutOfFuel
  | S fuel' =>
      r ← lowestPass evs toUpdate node ref;
      match r.2 with
      | [] => Ok r.1
      | next => lowestLoop fuel' r.1 next node ref
      end
  end.

Definition updateAllLowestSees (fuel : nat) (evs : gmap EventHash Event)
    (e : EventHash) (node : nat) (ref : Z) : result (gmap EventHash Event) :=
  lowestLoop fuel evs [e] node ref.

(** [for i, n := range parent.HighestSeen] from position [i] on. *)
Fixpoint highestFrom (i : nat) (ps : list Z) (hs : list Z) : result (list Z) :=
  match ps with
  | [] => Ok hs
  | n :: ps' =>
      cur ← index hs i;
      hs' ← (if cur <? n then assign hs i n else Ok hs);
      highestFrom (S i) ps' hs'
  end.

Definition updateAllHighestSeen (e parent : Event) : result Event :=
  hs ← highestFrom 0 (HighestSeen parent) (HighestSeen e);
  Ok (setHighestSeen e hs).

(** The body of [for p := range e.Parents]. *)
Definition fillParent (fuel : nat) (st : gmap EventHash Event * Event) (p : EventHash)
    : result (gmap EventHash Event * Event) :=
  let '(evs, e) := st in
  if IsZero p then Ok st
  else
    evs' ← updateAllLowestSees fuel evs p (CreatorN e) (Index (interEvent e));
    parent ← deref (evs' !! p);
    e' ← updateAllHighestSeen e parent;
    Ok (evs', e').

Definition fillEventRefs (fuel : nat) (evs : gmap EventHash Event) (e : Event)
    : result (gmap EventHash Event * Event) :=
  l ← assign (LowestSees e) (CreatorN e) (Index (interEvent e));
  h ← assign (HighestSeen e) (CreatorN e) (Index (interEvent e));
  foldM (fillParent fuel) (evs, mkEvent (interEvent e) (CreatorN e) l h)
        (Parents (interEvent e)).

Definition Add (fuel : nat) (ss : Strongly) (e : InterEvent) : result Strongly :=
  match events ss !! Hash e with
  | Some _ => Panic Fatal
  | None =>
      let zeros := replicate (size (members ss)) 0 in
      let event := mkEvent e O zeros zeros in
      let st := setNodes ss event in
      r ← fillEventRefs fuel (events st.1) st.2;
      Ok (setEvents st.1 (<[Hash e := r.2]> r.1))
  end.

(** The slot [ss.nodes[m]]: a missing key reads as the zero value. *)
Definition slot (ss : Strongly) (m : Peer) : nat := default O (nodes ss !! m).

Section Coherence.

(** The majority-weight threshold of a validator set is declared outside
    src/ and taken as a parameter. *)
Variable quorum : Members -> Z.

(** Modelled from the spec: the counter of [internal.Members]
    ([NewCounter], [Count], [HasMajority]) is declared outside src/.  The spec
    speaks of a weighted count over the validators that reaches the
    majority-weight threshold of the validator set: the counter is the
    weight counted so far. *)
Definition NewCounter (mm : Members) : Z := 0.
Definition Count (mm : Members) (counter : Z) (m : Peer) : Z :=
  counter + default 0 (mm !! m).
Definition HasMajority (mm : Members) (counter : Z) : bool :=
  quorum mm <=? counter.

(** The condition of the [if] in [sufficientCoherence], operands read in
    Go's left-to-right order. *)
Definition coherentAt (event1 event2 : option Event) (n : nat) : result bool :=
  e2 ← deref event2;
  lo ← index (LowestSees e2) n;
  e1 ← deref event1;
  hi ← index (HighestSeen e1) n;
  Ok ((lo <=? hi) && negb (lo =? 0)).

Definition sufficientCoherence (ss : Strongly) (event1 event2 : option Event) : result bool :=
  counter ← foldM (λ counter (mw : Peer * Z),
                     c ← coherentAt event1 event2 (slot ss mw.1);
                     Ok (if c : bool then Count (members ss) counter mw.1 else counter))
                  (NewCounter (members ss)) (map_to_list (members ss));
  Ok (HasMajority (members ss) counter).

Definition See (ss : Strongly) (who whom : EventHash) : result bool :=
  let a := events ss !! who in
  let b := events ss !! whom in
  sufficientCoherence ss a b.

End Coherence.

(** Modelled from the spec: the threshold of [internal.Members] is declared
    outside src/.  The spec's example gives four members of weight 1 the
    threshold 3, and the comment of [sufficientCoherence] asks for "more
    than 2n/3": two thirds of the total weight, plus one.  Only the examples
    use it; the theorems hold for every threshold. *)
Definition totalWeight (mm : Members) : Z :=
  foldr (λ (mw : Peer * Z) acc, mw.2 + acc) 0 (map_to_list mm).
Definition twoThirds (mm : Members) : Z := totalWeight mm * 2 / 3 + 1.

End Seeing.


(** * Package gossip: transaction packing and admission control *)

Module Emitter.

(** [uint64] and [int64] ([time.Duration]) arithmetic wraps around. *)
Definition wrap64 (z : Z) : Z := z mod 2 ^ 64.
Definition wrapInt64 (z : Z) : Z := (z + 2 ^ 63) mod 2 ^ 64 - 2 ^ 63.

(** [types.Transaction]: its gas limit, and a tag standing for the rest of
    its content. *)
Record Transaction : Type := mkTx {
  TxTag : N;
  Gas : Z;
}.

(** [inter.EventHeaderData] and [inter.Event], with the fields the emitter
    reads and writes here. *)
Record EventHeaderData : Type := mkHeader {
  GasPowerUsed : Z;
  GasPowerLeft : Z;
}.

Record Event : Type := mkEvent {
  header : EventHeaderData;
  Transactions : list Transaction;
}.

(** [em.dag.GasPower] and [em.config]. *)
Record GasPowerConfig : Type := mkGasPower {
  NoTxsThreshold : Z;
  GasPowerControlThreshold : Z;
  EmergencyThreshold : Z;
}.

Record EmitterConfig : Type := mkConfig {
  MinEmitInterval : Z;
  MaxEmitInterval : Z;
}.

Section Admission.

(** [basic_check.MaxGasPowerUsed], [basic_check.MaxEventSize] and
    [uint64(e.CalcSize())] are declared outside src/ and taken as
    parameters. *)
Variable MaxGasPowerUsed : Z.
Variable MaxEventSize : Z.
Variable CalcSize : Event -> Z.

Variable gasPower : GasPowerConfig.
Variable config : EmitterConfig.

(** [smoothed] is the value of the floating-point expression
    [uint64(float64(elapsed) * em.gasRate.Rate1() * MaxGasRateGrowthFactor)]. *)
Definition maxGasPowerToUse (smoothed : Z) (e : Event) : Z :=
  if GasPowerLeft (header e) <=? NoTxsThreshold gasPower then 0
  else if GasPowerLeft (header e) <=? GasPowerControlThreshold gasPower then
    (if MaxGasPowerUsed <? smoothed then MaxGasPowerUsed else smoothed)
  else MaxGasPowerUsed.

Definition fits (maxGasUsed : Z) (e : Event) (tx : Transaction) : bool :=
  (Gas tx <? GasPowerLeft (header e))
  && (wrap64 (GasPowerUsed (header e) + Gas tx) <? maxGasUsed).

(** The body of [for _, tx := range txs]: note [append(e.Transactions, txs...)]. *)
Definition packTx (maxGasUsed : Z) (txs : list Transaction) (e : Event) (tx : Transaction) : Event :=
  if fits maxGasUsed e tx then
    mkEvent (mkHeader (wrap64 (GasPowerUsed (header e) + Gas tx))
                      (wrap64 (GasPowerLeft (header e) - Gas tx)))
            (Transactions e ++ txs)
  else e.

Definition packGroup (maxGasUsed : Z) (e : Event) (txs : list Transaction) : Event :=
  fold_left (packTx maxGasUsed txs) txs e.

(** The packing loop over the pending groups, in the order the range over
    the pool's map yields them. *)
Definition pack (maxGasUsed : Z) (e : Event) (poolTxs : list (list Transaction)) : Event :=
  fold_left (packGroup maxGasUsed) poolTxs e.

(** One round of the spill loop: refund the last transaction, drop it. *)
Definition refundTx (tx : Transaction) (h : EventHeaderData) : EventHeaderData :=
  mkHeader (wrap64 (GasPowerUsed h - Gas tx)) (wrap64 (GasPowerLeft h + Gas tx)).

Definition spillOne (e : Event) (tx : Transaction) : Event :=
  mkEvent (refundTx tx (header e))
          (take (length (Transactions e) - 1) (Transactions e)).

Definition oversized (e : Event) : bool :=
  (MaxEventSize <? CalcSize e) && (0 <? length (Transactions e))%nat.

Fixpoint spill (fuel : nat) (e : Event) : result Event :=
  match fuel with
  | O => OutOfFuel
  | S fuel' =>
      if oversized e then
        match Transactions e !! (length (Transactions e) - 1)%nat with
        | Some tx => spill fuel' (spillOne e tx)
        | None => Panic IndexOutOfRange
        end
      else Ok e
  end.

(** [pending] is what [em.txpool.Pending()] returned; [None] is its error. *)
Definition addTxs (fuel : nat) (pending : option (list (list Transaction)))
    (smoothed : Z) (e : Event) : result Event :=
  match pending with
  | None => Ok e
  | Some poolTxs =>
      let maxGasUsed := maxGasPowerToUse smoothed e in
      spill fuel (pack maxGasUsed e poolTxs)
  end.

(** The interval below which an event with little power is held back. *)
Definition adjustedEmitInterval (e : Event) : Z :=
  let span := wrapInt64 (MaxEmitInterval config - MinEmitInterval config) in
  let scaled := wrapInt64 (span * wrapInt64 (GasPowerLeft (header e))) in
  wrapInt64 (MaxEmitInterval config
             - wrapInt64 (Z.quot scaled (wrapInt64 (NoTxsThreshold gasPower)))).

(** [elapsed] is the duration [e.ClaimedTime.Time().Sub(em.prevEmittedTime)]. *)
Definition isAllowedToEmit (elapsed : Z) (e : Event) (selfParent : option EventHeaderData)
    : result bool :=
  held ← (if GasPowerLeft (header e) <=? NoTxsThreshold gasPower then
            if wrapInt64 (NoTxsThreshold gasPower) =? 0 then Panic DivideByZero
            else Ok (elapsed <? adjustedEmitInterval e)
          else Ok false);
  if held : bool then Ok false
  else if GasPowerLeft (header e) <=? EmergencyThreshold gasPower then
    match selfParent with
    | Some parent =>
        if GasPowerLeft (header e) >=? GasPowerLeft parent then Ok true else Ok false
    | None => Panic NilDeref   (* the argument [selfParent.GasPowerLeft] of log.Warn *)
    end
  else Ok true.

End Admission.

End Emitter.

(** * Specification-level definitions for the ancestry index *)

Module SeeingSpec.
Import Seeing.

(** States the engine can be in: bound to a validator set by [Reset], then
    grown by [Add] calls that returned. *)
Inductive reachable : Strongly -> Prop :=
| reach_Reset ss mm : reachable (Reset ss mm)
| reach_Add fuel ss e ss' :
    reachable ss -> Add fuel ss e = Ok ss' -> reachable ss'.

(** [later ss ss']: [ss'] comes from [ss] by [Add] calls that returned, of
    events with a nonzero sequence number. *)
Inductive later : Strongly -> Strongly -> Prop :=
| later_refl ss : later ss ss
| later_Add fuel ss ss1 e ss2 :
    later ss ss1 -> Index e ≠ 0 -> Add fuel ss1 e = Ok ss2 -> later ss ss2.

(** The weight of the members that satisfy [P], as the spec words it. *)
Definition weightedCount (P : Peer -> bool) (mm : Members) : Z :=
  foldr (λ (mw : Peer * Z) acc, (if P mw.1 then mw.2 else 0) + acc) 0 (map_to_list mm).

(** The spec's test on one slot: [event2.LowestSees[n] != 0] and
    [event2.LowestSees[n] <= event1.HighestSeen[n]]. *)
Definition coherentSlot (e1 e2 : Event) (n : nat) : bool :=
  match LowestSees e2 !! n, HighestSeen e1 !! n with
  | Some lo, Some hi => negb (lo =? 0) && (lo <=? hi)
  | _, _ => false
  end.





(** What one walk for slot [node] and sequence number [ref] may have done
    to a record. *)
Record touched (node : nat) (ref : Z) (r0 r : Event) : Prop := mkTouched {
  touched_inter : interEvent r = interEvent r0;
  touched_creator : CreatorN r = CreatorN r0;
  touched_highest : HighestSeen r = HighestSeen r0;
  touched_lowest :
    LowestSees r = LowestSees r0
    ∨ (LowestSees r = <[node := ref]> (LowestSees r0)
       ∧ ∃ cur, LowestSees r0 !! node = Some cur ∧ accepts r0 node ref cur = true);
}.

Definition storeRel (node : nat) (ref : Z) (evs0 evs : gmap EventHash Event) : Prop :=
  ∀ h, option_Forall2 (touched node ref) (evs0 !! h) (evs !! h).

(** Parents are indexed before their children: a rank that decreases
    along parent links and is bounded by the number of records. *)
Definition ranked (rank : EventHash -> nat) (evs : gmap EventHash Event) : Prop :=
  ∀ h r, evs !! h = Some r ->
    (rank h < size evs)%nat
    ∧ ∀ p, p ∈ Parents (interEvent r) -> IsZero p = false ->
        is_Some (evs !! p) ∧ (rank p < rank h)%nat.

(** All arrays of the store have length [n]. *)
Definition sized (n : nat) (evs : gmap EventHash Event) : Prop :=
  ∀ h r, evs !! h = Some r -> length (LowestSees r) = n ∧ length (HighestSeen r) = n.

Record wf (ss : Strongly) : Prop := mkWf {
  wf_sized : sized (size (members ss)) (events ss);
  wf_ranked : ∃ rank, ranked rank (events ss);
  wf_slot : ∀ c n, nodes ss !! c = Some n -> (n < size (members ss))%nat;
  wf_creator : ∀ h r, events ss !! h = Some r ->
      nodes ss !! Creator (interEvent r) = Some (CreatorN r);
  wf_seen : ∀ c n, nodes ss !! c = Some n ->
      ∃ h r, events ss !! h = Some r ∧ Creator (interEvent r) = c;
}.

(** What the loop over the parents has done so far, starting from the
    store [evs0] and the fresh record [e0]. *)
Record built (evs0 : gmap EventHash Event) (e0 : Event)
    (st : gmap EventHash Event * Event) : Prop := mkBuilt {
  built_rel : storeRel (CreatorN e0) (Index (interEvent e0)) evs0 st.1;
  built_inter : interEvent st.2 = interEvent e0;
  built_creator : CreatorN st.2 = CreatorN e0;
  built_lowest : LowestSees st.2 = LowestSees e0;
  built_len : length (HighestSeen st.2) = length (HighestSeen e0);
  built_mono : ∀ j x, HighestSeen e0 !! j = Some x ->
      ∃ y, HighestSeen st.2 !! j = Some y ∧ x <= y;
}.

(** The slot [setNodes] gives to the creator of [e], and the record
    [fillEventRefs] starts the parent loop with. *)
Definition creatorSlot (ss : Strongly) (e : InterEvent) : nat :=
  default (size (nodes ss)) (nodes ss !! Creator e).

Definition seeded (ss : Strongly) (e : InterEvent) : Event :=
  let l := <[creatorSlot ss e := Index e]> (replicate (size (members ss)) 0) in
  mkEvent e (creatorSlot ss e) l l.

(** What a successful [Add] of [e] has done: [r] is the new record. *)
Record added (ss : Strongly) (e : InterEvent) (ss' : Strongly) (r : Event) : Prop := mkAdded {
  added_fresh : events ss !! Hash e = None;
  added_members : members ss' = members ss;
  added_slot : CreatorN r = creatorSlot ss e;
  added_nodes : nodes ss' = <[Creator e := CreatorN r]> (nodes ss);
  added_fits : (CreatorN r < size (members ss))%nat;
  added_events : ∃ evs, events ss' = <[Hash e := r]> evs
      ∧ storeRel (CreatorN r) (Index e) (events ss) evs;
  added_inter : interEvent r = e;
  added_lowest : LowestSees r = <[CreatorN r := Index e]> (replicate (size (members ss)) 0);
  added_highest_len : length (HighestSeen r) = size (members ss);
  added_highest : ∃ y, HighestSeen r !! CreatorN r = Some y ∧ Index e <= y;
  added_parents : ∀ p, p ∈ Parents e -> IsZero p = false -> is_Some (events ss !! p);
}.

End SeeingSpec.

(** * Small indexes used as examples *)

Module Scenario.
Import Seeing.

Definition alice : Peer := 1%N.
Definition bob : Peer := 2%N.
Definition carol : Peer := 3%N.
Definition dave : Peer := 4%N.

(** One validator of weight 1 (threshold 1), and the four validators of
    weight 1 of the spec's example (threshold 3). *)
Definition solo : gmap N Z := {[ alice := 1 ]}.
Definition four : gmap N Z :=
  <[alice := 1]> (<[bob := 1]> (<[carol := 1]> {[ dave := 1 ]})).

(** alice's first event, her second event on top of it, and bob's first. *)
Definition a1 : InterEvent := mkInterEvent 11 alice 1 [].
Definition a2 : InterEvent := mkInterEvent 12 alice 2 [11%N].
Definition b1 : InterEvent := mkInterEvent 21 bob 1 [].

Definition state (r : result Strongly) : Strongly :=
  match r with
  | Ok ss => ss
  | _ => New ∅
  end.

(** The events of the chain example: one event per validator, then a
    second event of bob, carol and dave, each on top of the previous one. *)
Definition c1 : InterEvent := mkInterEvent 31 carol 1 [].
Definition d1 : InterEvent := mkInterEvent 41 dave 1 [].
Definition b2 : InterEvent := mkInterEvent 22 bob 2 [21%N; 11%N].
Definition c2 : InterEvent := mkInterEvent 32 carol 2 [31%N; 22%N].
Definition d2 : InterEvent := mkInterEvent 42 dave 2 [41%N; 32%N].
Definition chain : result Strongly :=
  foldM (Add 8) (New four) [a1; b1; c1; d1; b2; c2; d2].

Definition solo1 : Strongly := state (Add 4 (New solo) a1).
Definition solo2 : Strongly := state (Add 4 solo1 a2).
Definition four1 : Strongly := state (Add 4 (New four) a1).
Definition four2 : Strongly := state (Add 4 four1 b1).

End Scenario.

Module EmitterScenario.
Import Emitter.

(** Five pending transactions of 300 gas each, from one sender and from
    five senders, and an event with 1000 units of power left. *)
Definition tx300 (tag : N) : Transaction := mkTx tag 300.
Definition oneSender : list (list Transaction) :=
  [[tx300 1; tx300 2; tx300 3; tx300 4; tx300 5]].
Definition fiveSenders : list (list Transaction) :=
  [[tx300 1]; [tx300 2]; [tx300 3]; [tx300 4]; [tx300 5]].
Definition budget : Event := mkEvent (mkHeader 0 1000) [].

(** One sender with a transaction of 300 gas followed by one of 5000. *)
Definition mixed : list (list Transaction) := [[mkTx 1 300; mkTx 2 5000]].

(** Thresholds below the event's power, so that the cap is
    [MaxGasPowerUsed]; and a size that never exceeds the limit. *)
Definition healthy : GasPowerConfig := mkGasPower 0 0 0.
Definition noSize (e : Event) : Z := 0.

(** A size of 100 per transaction. *)
Definition size100 (e : Event) : Z := 100 * Z.of_nat (length (Transactions e)).

(** Pacing below 100 units of power, emergency at 10; intervals in
    nanoseconds. *)
Definition pacing : GasPowerConfig := mkGasPower 100 1000 10.
Definition intervals : EmitterConfig := mkConfig 100 1000.
Definition atEmergency : Event := mkEvent (mkHeader 0 10) [].

End EmitterScenario.

(** * Further invariants of the ancestry index *)

Module SeeingInvariants.
Import Seeing.

(** The creator-slot table is dense and one-to-one, and no larger than the
    validator set. *)
Record denseSlots (ss : Strongly) : Prop := mkDense {
  dense_lt : ∀ c n, nodes ss !! c = Some n -> (n < size (nodes ss))%nat;
  dense_inj : ∀ c c' n, nodes ss !! c = Some n -> nodes ss !! c' = Some n -> c = c';
  dense_bound : (size (nodes ss) ≤ size (members ss))%nat;
}.

(** Every record is stored under the hash of its event. *)
Definition keyed (evs : gmap EventHash Event) : Prop :=
  ∀ h r, evs !! h = Some r -> Hash (interEvent r) = h.

(** [xs] is below [ys] at every position of [xs]. *)
Definition below (xs ys : list Z) : Prop :=
  ∀ j x, xs !! j = Some x -> ∃ y, ys !! j = Some y ∧ x <= y.

(** A record has seen its own event, and all that its parents have seen. *)
Definition dominant (evs : gmap EventHash Event) : Prop :=
  ∀ h r, evs !! h = Some r ->
    (∃ v, HighestSeen r !! CreatorN r = Some v ∧ Index (interEvent r) <= v)
    ∧ ∀ p rp, p ∈ Parents (interEvent r) -> IsZero p = false -> evs !! p = Some rp ->
        below (HighestSeen rp) (HighestSeen r).

(** Slot [n] has an indexed event with sequence number [v]. *)
Definition witnessed (evs : gmap EventHash Event) (n : nat) (v : Z) : Prop :=
  ∃ h d, evs !! h = Some d ∧ CreatorN d = n ∧ Index (interEvent d) = v.

(** Every nonzero entry of either array is the sequence number of an
    indexed event of that slot. *)
Definition grounded (evs : gmap EventHash Event) : Prop :=
  ∀ h r n v, evs !! h = Some r -> v ≠ 0 ->
    (LowestSees r !! n = Some v -> witnessed evs n v)
    ∧ (HighestSeen r !! n = Some v -> witnessed evs n v).

(** What a walk for slot [node] and sequence number [ref] leaves at a
    record it has visited. *)
Definition reached (node : nat) (ref : Z) (r : Event) : Prop :=
  ∃ v, LowestSees r !! node = Some v ∧ v <= ref ∧ (ref ≠ 0 -> v ≠ 0).

End SeeingInvariants.

(** * Gas accounting of the emitter *)

Module EmitterInvariants.
Import Emitter.

(** The gas power an event accounts for, used and left together, as a
    [uint64]. *)
Definition gasTotal (e : Event) : Z :=
  wrap64 (GasPowerUsed (header e) + GasPowerLeft (header e)).

(** Both gas fields are [uint64] values whose sum is one too. *)
Definition inRange (e : Event) : Prop :=
  0 <= GasPowerUsed (header e) ∧ 0 <= GasPowerLeft (header e)
  ∧ GasPowerUsed (header e) + GasPowerLeft (header e) < 2 ^ 64.

(** The transactions of the pending groups. *)
Definition pooled (poolTxs : list (list Transaction)) (tx : Transaction) : Prop :=
  ∃ txs, txs ∈ poolTxs ∧ tx ∈ txs.

End EmitterInvariants.

(** * Reasoning about outcomes *)

Lemma bind_Ok_inv {A B} (m : result A) (f : A -> result B) (b : B) :
  m ≫= f = Ok b -> ∃ a, m = Ok a ∧ f a = Ok b.
Proof. destruct m as [a| |]; simpl; [eauto | discriminate..]. Qed.

Lemma index_Ok (xs : list Z) (i : nat) (x : Z) :
  index xs i = Ok x ↔ xs !! i = Some x.
Proof. unfold index. destruct (xs !! i); naive_solver. Qed.

Lemma index_lt (xs : list Z) (i : nat) :
  (i < length xs)%nat -> ∃ x, xs !! i = Some x ∧ index xs i = Ok x.
Proof.
  intros [x Hx]%lookup_lt_is_Some_2. exists x. by rewrite index_Ok.
Qed.

Lemma index_ge (xs : list Z) (i : nat) :
  (length xs ≤ i)%nat -> index xs i = Panic IndexOutOfRange.
Proof. intros H. unfold index. by rewrite lookup_ge_None_2. Qed.

Lemma assign_Ok (xs : list Z) (i : nat) (v : Z) (ys : list Z) :
  assign xs i v = Ok ys ↔ (i < length xs)%nat ∧ ys = <[i := v]> xs.
Proof.
  unfold assign. case_decide; split.
  - by intros [= <-].
  - by intros [_ ->].
  - discriminate.
  - intros [? _]. lia.
Qed.

Lemma assign_lt (xs : list Z) (i : nat) (v : Z) :
  (i < length xs)%nat -> assign xs i v = Ok (<[i := v]> xs).
Proof. intros. by apply assign_Ok. Qed.

Lemma assign_ge (xs : list Z) (i : nat) (v : Z) :
  (length xs ≤ i)%nat -> assign xs i v = Panic IndexOutOfRange.
Proof. intros. unfold assign. case_decide; [lia | done]. Qed.

(** Split a hypothesis [x ← m; k = Ok b] into its steps. *)
Ltac ok_inv H :=
  let a := fresh "a" in
  let Ha := fresh "Hok" in
  apply bind_Ok_inv in H as (a & Ha & H).

Module SeeingProofs.
Import Seeing SeeingSpec.

(** ** Records and stores under a walk *)

Lemma touched_refl node ref r : touched node ref r r.
Proof. split; auto. Qed.

Lemma setLowestSeesIfMin_Ok e node ref :
  (node < length (LowestSees e))%nat ->
  ∃ e' b, setLowestSeesIfMin e node ref = Ok (e', b)
    ∧ touched node ref e e'
    ∧ (b = false -> e' = e)
    ∧ (b = true -> LowestSees e' = <[node := ref]> (LowestSees e)).
Proof.
  intros Hlt. destruct (index_lt _ _ Hlt) as (cur & Hcur & Hidx).
  unfold setLowestSeesIfMin. rewrite Hidx. simpl.
  destruct (accepts e node ref cur) eqn:Hacc.
  - rewrite (assign_lt _ _ _ Hlt). simpl.
    eexists _, true. split; [done|]. split; [|done].
    split; simpl; eauto 6.
  - exists e, false. split; [done|]. split; [apply touched_refl | done].
Qed.

Lemma setLowestSeesIfMin_oob e node ref :
  (length (LowestSees e) ≤ node)%nat ->
  setLowestSeesIfMin e node ref = Panic IndexOutOfRange.
Proof. intros H. unfold setLowestSeesIfMin. by rewrite index_ge. Qed.

Lemma accepts_ext r0 r node ref cur :
  interEvent r = interEvent r0 -> CreatorN r = CreatorN r0 ->
  accepts r node ref cur = accepts r0 node ref cur.
Proof. unfold accepts. by intros -> ->. Qed.

Lemma touched_step node ref r0 r r' :
  touched node ref r0 r -> touched node ref r r' -> touched node ref r0 r'.
Proof.
  intros [Hi Hc Hh Hl] [Hi' Hc' Hh' Hl'].
  split; [congruence..|].
  destruct Hl' as [Heq | (Heq & cur & Hcur & Hacc)].
  - rewrite Heq. exact Hl.
  - rewrite Heq. destruct Hl as [Hl | (Hl & Hex)].
    + right. split; [by rewrite Hl|]. exists cur.
      split; [by rewrite <- Hl|]. by rewrite <- (accepts_ext r0 r).
    + right. split; [|done]. by rewrite Hl, list_insert_insert_eq.
Qed.

Lemma touched_length node ref r0 r :
  touched node ref r0 r ->
  length (LowestSees r) = length (LowestSees r0)
  ∧ length (HighestSeen r) = length (HighestSeen r0).
Proof.
  intros [_ _ Hh [Hl | [Hl _]]]; rewrite Hh, Hl, ?length_insert; done.
Qed.

Lemma storeRel_refl node ref evs : storeRel node ref evs evs.
Proof.
  intros h. destruct (evs !! h); constructor. apply touched_refl.
Qed.

Lemma storeRel_Some node ref evs0 evs h r0 :
  storeRel node ref evs0 evs -> evs0 !! h = Some r0 ->
  ∃ r, evs !! h = Some r ∧ touched node ref r0 r.
Proof.
  intros Hrel Hh. specialize (Hrel h). rewrite Hh in Hrel.
  inversion Hrel; subst. eauto.
Qed.

Lemma storeRel_Some_inv node ref evs0 evs h r :
  storeRel node ref evs0 evs -> evs !! h = Some r ->
  ∃ r0, evs0 !! h = Some r0 ∧ touched node ref r0 r.
Proof.
  intros Hrel Hh. specialize (Hrel h). rewrite Hh in Hrel.
  inversion Hrel; subst. eauto.
Qed.

Lemma storeRel_None node ref evs0 evs h :
  storeRel node ref evs0 evs -> evs0 !! h = None ↔ evs !! h = None.
Proof.
  intros Hrel. specialize (Hrel h).
  split; intros Hh; rewrite Hh in Hrel; by inversion Hrel.
Qed.

Lemma storeRel_insert node ref evs0 evs h r0 r :
  storeRel node ref evs0 evs -> evs0 !! h = Some r0 -> touched node ref r0 r ->
  storeRel node ref evs0 (<[h := r]> evs).
Proof.
  intros Hrel Hh Ht k. destruct (decide (h = k)) as [->|Hne].
  - rewrite lookup_insert_eq, Hh. by constructor.
  - rewrite lookup_insert_ne by done. apply Hrel.
Qed.

Lemma storeRel_dom node ref evs0 evs :
  storeRel node ref evs0 evs -> dom evs = dom evs0.
Proof.
  intros Hrel. apply set_eq. intros h. rewrite !elem_of_dom.
  specialize (Hrel h). inversion Hrel; split; intros [? ?]; by eauto.
Qed.

Lemma storeRel_size node ref evs0 evs :
  storeRel node ref evs0 evs -> size evs = size evs0.
Proof.
  intros Hrel. rewrite <- !size_dom. by rewrite (storeRel_dom _ _ _ _ Hrel).
Qed.

Lemma storeRel_sized node ref n evs0 evs :
  storeRel node ref evs0 evs -> sized n evs0 -> sized n evs.
Proof.
  intros Hrel Hs h r Hh.
  destruct (storeRel_Some_inv _ _ _ _ _ _ Hrel Hh) as (r0 & Hh0 & Ht).
  destruct (touched_length _ _ _ _ Ht) as [-> ->]. by apply (Hs h).
Qed.

Lemma storeRel_ranked node ref rank evs0 evs :
  storeRel node ref evs0 evs -> ranked rank evs0 -> ranked rank evs.
Proof.
  intros Hrel Hr h r Hh.
  destruct (storeRel_Some_inv _ _ _ _ _ _ Hrel Hh) as (r0 & Hh0 & Ht).
  destruct (Hr h r0 Hh0) as [Hlt Hp].
  rewrite (storeRel_size _ _ _ _ Hrel). split; [done|].
  intros p Hin Hnz. rewrite (touched_inter _ _ _ _ Ht) in Hin.
  destruct (Hp p Hin Hnz) as [[rp Hrp] Hlp]. split; [|done].
  destruct (storeRel_Some _ _ _ _ _ _ Hrel Hrp) as (? & -> & _). eauto.
Qed.

(** ** The back-propagation walk *)

Section Walk.

Variables (n node : nat) (ref : Z).
Variable evs0 : gmap EventHash Event.
Hypothesis Hsized : sized n evs0.
Hypothesis Hnode : (node < n)%nat.

Lemma lowestPass_ok (l : list EventHash) :
  (∀ h, h ∈ l -> is_Some (evs0 !! h)) ->
  ∀ evs, storeRel node ref evs0 evs ->
  ∃ evs' next, lowestPass evs l node ref = Ok (evs', next)
    ∧ storeRel node ref evs0 evs'
    ∧ ∀ p, p ∈ next ->
        IsZero p = false
        ∧ ∃ h r0, h ∈ l ∧ evs0 !! h = Some r0 ∧ p ∈ Parents (interEvent r0).
Proof.
  induction l as [|h rest IH]; intros Hin evs Hrel.
  - exists evs, []. simpl. split; [done|]. split; [done|].
    intros p Hp. by apply elem_of_nil in Hp.
  - destruct (Hin h) as [r0 Hr0]; [by left|].
    destruct (storeRel_Some _ _ _ _ _ _ Hrel Hr0) as (r & Hr & Ht).
    destruct (touched_length _ _ _ _ Ht) as [Hlen _].
    destruct (Hsized h r0 Hr0) as [Hlen0 _].
    destruct (setLowestSeesIfMin_Ok r node ref) as (e' & b & Hset & Ht' & _); [lia|].
    pose proof (touched_step _ _ _ _ _ Ht Ht') as Ht0.
    destruct (IH (λ k Hk, Hin k (list_elem_of_further _ _ _ Hk))
                 (<[h := e']> evs) (storeRel_insert _ _ _ _ _ _ _ Hrel Hr0 Ht0))
      as (evs' & next & Hpass & Hrel' & Hnext).
    simpl. rewrite Hr. simpl. rewrite Hset. simpl. rewrite Hpass. simpl.
    eexists _, _. split; [done|]. split; [done|].
    intros p [Hp|Hp]%elem_of_app.
    + destruct b; [|by apply elem_of_nil in Hp].
      apply list_elem_of_filter in Hp as [Hnz Hp]. split; [done|].
      exists h, r0. split; [by left|]. split; [done|].
      by rewrite <- (touched_inter _ _ _ _ Ht0).
    + destruct (Hnext p Hp) as (Hnz & k & rk & Hk & Hrk & Hpk). split; [done|].
      exists k, rk. split; [by right | done].
Qed.

(** A work-list entry without a record makes the pass fail with a nil
    dereference. *)
Lemma lowestPass_missing (l : list EventHash) :
  (∃ h, h ∈ l ∧ evs0 !! h = None) ->
  ∀ evs, storeRel node ref evs0 evs ->
  lowestPass evs l node ref = Panic NilDeref.
Proof.
  induction l as [|h rest IH]; intros (k & Hk & Hnone) evs Hrel.
  - by apply elem_of_nil in Hk.
  - simpl. destruct (evs0 !! h) as [r0|] eqn:Hr0.
    + destruct (storeRel_Some _ _ _ _ _ _ Hrel Hr0) as (r & Hr & Ht).
      destruct (touched_length _ _ _ _ Ht) as [Hlen _].
      destruct (Hsized h r0 Hr0) as [Hlen0 _].
      destruct (setLowestSeesIfMin_Ok r node ref) as (e' & b & Hset & Ht' & _); [lia|].
      pose proof (touched_step _ _ _ _ _ Ht Ht') as Ht0.
      rewrite Hr. simpl. rewrite Hset. simpl.
      rewrite IH; [done| |by eapply storeRel_insert].
      exists k. split; [|done].
      apply elem_of_cons in Hk as [->|Hk]; [congruence | done].
    + apply (storeRel_None _ _ _ _ h Hrel) in Hr0. by rewrite Hr0.
Qed.

Variable rank : EventHash -> nat.
Hypothesis Hranked : ranked rank evs0.

Lemma lowestLoop_ok (fuel : nat) :
  ∀ (d : nat) (l : list EventHash) evs,
  (d < fuel)%nat ->
  (∀ h, h ∈ l -> is_Some (evs0 !! h) ∧ (rank h < d)%nat) ->
  storeRel node ref evs0 evs ->
  ∃ evs', lowestLoop fuel evs l node ref = Ok evs' ∧ storeRel node ref evs0 evs'.
Proof.
  induction fuel as [|fuel IH]; intros d l evs Hd Hl Hrel; [lia|].
  destruct (lowestPass_ok l (λ h Hh, proj1 (Hl h Hh)) evs Hrel)
    as (evs' & next & Hpass & Hrel' & Hnext).
  simpl. rewrite Hpass. simpl. destruct next as [|p next]; [eauto|].
  apply (IH (pred d)); [| |done].
  - destruct (Hnext p) as (_ & h & r0 & Hh & _); [by left|].
    destruct (Hl h Hh). lia.
  - intros q Hq. destruct (Hnext q Hq) as (Hnz & h & r0 & Hh & Hr0 & Hqh).
    destruct (Hranked h r0 Hr0) as [_ Hp]. destruct (Hp q Hqh Hnz) as [Hsome Hlt].
    split; [done|]. destruct (Hl h Hh). lia.
Qed.

End Walk.

(** Whatever a walk returns is related to the store it started from. *)
Lemma lowestPass_rel node ref evs0 (l : list EventHash) :
  ∀ evs evs' next, storeRel node ref evs0 evs ->
  lowestPass evs l node ref = Ok (evs', next) ->
  storeRel node ref evs0 evs'.
Proof.
  induction l as [|h rest IH]; intros evs evs' next Hrel Hpass; simpl in Hpass.
  - by simplify_eq.
  - ok_inv Hpass. ok_inv Hpass. ok_inv Hpass. simplify_eq. simpl.
    destruct (evs !! h) as [r|] eqn:Hr; [|discriminate]. simpl in Hok. simplify_eq.
    destruct (storeRel_Some_inv _ _ _ _ _ _ Hrel Hr) as (r0 & Hr0 & Ht).
    destruct (decide (node < length (LowestSees a))%nat) as [Hlt|Hge].
    + destruct (setLowestSeesIfMin_Ok a node ref Hlt) as (e' & b & Hset & Ht' & _).
      rewrite Hset in Hok0. simplify_eq.
      destruct a1 as [evs1 next1]. eapply IH; [|done].
      eapply storeRel_insert; [done..|]. by eapply touched_step.
    + rewrite setLowestSeesIfMin_oob in Hok0 by lia. discriminate.
Qed.

Lemma lowestLoop_rel node ref evs0 (fuel : nat) :
  ∀ (l : list EventHash) evs evs', storeRel node ref evs0 evs ->
  lowestLoop fuel evs l node ref = Ok evs' ->
  storeRel node ref evs0 evs'.
Proof.
  induction fuel as [|fuel IH]; intros l evs evs' Hrel Hloop; simpl in Hloop; [discriminate|].
  ok_inv Hloop. destruct a as [evs1 next].
  pose proof (lowestPass_rel _ _ _ _ _ _ _ Hrel Hok) as Hrel1. simpl in Hloop.
  destruct next; [by simplify_eq|]. by eapply IH.
Qed.

(** ** Merging a parent's HighestSeen *)

Lemma highestFrom_ok (ps : list Z) :
  ∀ (i : nat) (hs : list Z), (i + length ps ≤ length hs)%nat ->
  ∃ hs', highestFrom i ps hs = Ok hs'
    ∧ length hs' = length hs
    ∧ ∀ j x, hs !! j = Some x -> ∃ y, hs' !! j = Some y ∧ x <= y.
Proof.
  induction ps as [|n ps IH]; intros i hs Hlen; simpl in *.
  - exists hs. split; [done|]. split; [done|]. intros j x Hj. exists x. split; [done|lia].
  - destruct (index_lt hs i) as (cur & Hcur & Hidx); [lia|].
    rewrite Hidx. simpl. destruct (Z.ltb_spec cur n) as [Hlt|Hge].
    + rewrite assign_lt by lia. simpl.
      destruct (IH (S i) (<[i := n]> hs)) as (hs' & Hrun & Hl & Hmono).
      { rewrite length_insert. lia. }
      exists hs'. split; [done|]. split; [by rewrite Hl, length_insert|].
      intros j x Hj. destruct (decide (i = j)) as [->|Hne].
      * destruct (Hmono j n) as (y & Hy & Hle).
        { apply list_lookup_insert_eq. lia. }
        exists y. split; [done|]. simplify_eq. lia.
      * apply Hmono. by rewrite list_lookup_insert_ne.
    + simpl. apply IH. lia.
Qed.

Lemma updateAllHighestSeen_ok (e parent : Event) :
  length (HighestSeen parent) = length (HighestSeen e) ->
  ∃ e', updateAllHighestSeen e parent = Ok e'
    ∧ interEvent e' = interEvent e ∧ CreatorN e' = CreatorN e
    ∧ LowestSees e' = LowestSees e
    ∧ length (HighestSeen e') = length (HighestSeen e)
    ∧ ∀ j x, HighestSeen e !! j = Some x -> ∃ y, HighestSeen e' !! j = Some y ∧ x <= y.
Proof.
  intros Hlen. unfold updateAllHighestSeen.
  destruct (highestFrom_ok (HighestSeen parent) 0 (HighestSeen e)) as (hs' & -> & Hl & Hm);
    [lia|].
  simpl. eexists. split; [done|]. simpl. auto.
Qed.

(** ** The loop over the parents *)

Lemma built_init evs0 e0 : built evs0 e0 (evs0, e0).
Proof.
  split; simpl; auto using storeRel_refl.
  intros j x Hj. exists x. split; [done | lia].
Qed.

Section Parents.

Variable evs0 : gmap EventHash Event.
Variable e0 : Event.
Local Abbreviation n := (length (HighestSeen e0)).
Hypothesis Hsized : sized n evs0.
Hypothesis Hfits : (CreatorN e0 < n)%nat.

Lemma fillParent_zero fuel st p :
  IsZero p = true -> fillParent fuel st p = Ok st.
Proof. intros Hz. unfold fillParent. destruct st. by rewrite Hz. Qed.

Lemma fillParent_missing fuel st p :
  built evs0 e0 st -> IsZero p = false -> evs0 !! p = None ->
  fillParent (S fuel) st p = Panic NilDeref.
Proof.
  intros [Hrel Hi Hc _ _ _] Hnz Hnone. destruct st as [evs e]. simpl in *.
  rewrite Hnz. unfold updateAllLowestSees. rewrite Hi, Hc. cbn [lowestLoop].
  rewrite (lowestPass_missing n _ _ evs0 Hsized Hfits [p]); [done| |done].
  exists p. split; [by left | done].
Qed.

Lemma built_step evs e evs' p (parent : Event) :
  built evs0 e0 (evs, e) ->
  storeRel (CreatorN e0) (Index (interEvent e0)) evs0 evs' ->
  evs' !! p = Some parent ->
  ∃ e', updateAllHighestSeen e parent = Ok e' ∧ built evs0 e0 (evs', e').
Proof.
  intros [Hrel Hi Hc Hl Hh Hm] Hrel' Hp. simpl in *.
  destruct (storeRel_Some_inv _ _ _ _ _ _ Hrel' Hp) as (r0 & Hr0 & Ht).
  destruct (touched_length _ _ _ _ Ht) as [_ Hhl].
  destruct (Hsized p r0 Hr0) as [_ Hhl0].
  destruct (updateAllHighestSeen_ok e parent) as (e' & Hup & Hi' & Hc' & Hl' & Hh' & Hm');
    [congruence|].
  exists e'. split; [done|]. split; simpl; [done | congruence..|].
  intros j x Hj. destruct (Hm j x Hj) as (y & Hy & Hxy).
  destruct (Hm' j y Hy) as (z & Hz & Hyz). exists z. split; [done|lia].
Qed.

Lemma fillParent_rel fuel st p st' :
  built evs0 e0 st -> fillParent fuel st p = Ok st' ->
  built evs0 e0 st' ∧ (IsZero p = false -> is_Some (evs0 !! p)).
Proof.
  intros Hb Hrun. destruct st as [evs e]. unfold fillParent in Hrun.
  destruct (IsZero p) eqn:Hz; [by simplify_eq|].
  ok_inv Hrun. ok_inv Hrun. ok_inv Hrun. simplify_eq.
  pose proof (built_rel _ _ _ Hb) as Hrel. simpl in Hrel.
  pose proof (built_inter _ _ _ Hb) as Hi. pose proof (built_creator _ _ _ Hb) as Hc.
  simpl in Hi, Hc. rewrite Hi, Hc in Hok.
  pose proof (lowestLoop_rel _ _ _ _ _ _ _ Hrel Hok) as Hrel'.
  destruct (a !! p) as [parent|] eqn:Hp; [|discriminate]. simpl in Hok0. simplify_eq.
  destruct (built_step _ _ _ _ _ Hb Hrel' Hp) as (e' & Hup & Hb').
  rewrite Hup in Hok1. simplify_eq. split; [done|]. intros _.
  destruct (storeRel_Some_inv _ _ _ _ _ _ Hrel' Hp) as (r0 & -> & _). eauto.
Qed.

Variable rank : EventHash -> nat.
Hypothesis Hranked : ranked rank evs0.

Lemma fillParent_ok fuel st p :
  (size evs0 < fuel)%nat -> built evs0 e0 st -> is_Some (evs0 !! p) ->
  ∃ st', fillParent fuel st p = Ok st'.
Proof.
  intros Hfuel Hb [r0 Hr0]. destruct st as [evs e]. unfold fillParent.
  destruct (IsZero p) eqn:Hz; [eauto|].
  pose proof (built_rel _ _ _ Hb) as Hrel. simpl in Hrel.
  destruct (lowestLoop_ok n (CreatorN e0) (Index (interEvent e0)) evs0 Hsized Hfits
              rank Hranked fuel (size evs0) [p] evs Hfuel) as (evs' & Hloop & Hrel'); [|done|].
  { intros h ->%list_elem_of_singleton. split; [eauto|]. by destruct (Hranked p r0 Hr0). }
  pose proof (built_inter _ _ _ Hb) as Hi. pose proof (built_creator _ _ _ Hb) as Hc.
  simpl in Hi, Hc. unfold updateAllLowestSees. rewrite Hi, Hc, Hloop. simpl.
  destruct (storeRel_Some _ _ _ _ _ _ Hrel' Hr0) as (parent & Hp & _).
  rewrite Hp. simpl.
  destruct (built_step _ _ _ _ _ Hb Hrel' Hp) as (e' & -> & _). simpl. eauto.
Qed.

Lemma foldM_fillParent_rel fuel (ps : list EventHash) :
  ∀ st st', built evs0 e0 st -> foldM (fillParent fuel) st ps = Ok st' ->
  built evs0 e0 st' ∧ ∀ p, p ∈ ps -> IsZero p = false -> is_Some (evs0 !! p).
Proof.
  induction ps as [|p ps IH]; intros st st' Hb Hrun; simpl in Hrun.
  - simplify_eq. split; [done|]. intros p Hp. by apply elem_of_nil in Hp.
  - ok_inv Hrun. destruct (fillParent_rel _ _ _ _ Hb Hok) as [Hb1 Hp].
    destruct (IH _ _ Hb1 Hrun) as [Hb' Hps]. split; [done|].
    intros q [->|Hq]%elem_of_cons; auto.
Qed.

Lemma foldM_fillParent_ok fuel (ps : list EventHash) :
  (size evs0 < fuel)%nat ->
  (∀ p, p ∈ ps -> IsZero p = false -> is_Some (evs0 !! p)) ->
  ∀ st, built evs0 e0 st -> ∃ st', foldM (fillParent fuel) st ps = Ok st'.
Proof.
  intros Hfuel. induction ps as [|p ps IH]; intros Hps st Hb; simpl; [eauto|].
  assert (∃ st1, fillParent fuel st p = Ok st1) as [st1 Hst1].
  { destruct (IsZero p) eqn:Hz.
    - exists st. by apply fillParent_zero.
    - apply fillParent_ok; [done..|]. apply Hps; [by left | done]. }
  rewrite Hst1. simpl. apply IH.
  - intros q Hq. apply Hps. by right.
  - by destruct (fillParent_rel _ _ _ _ Hb Hst1).
Qed.

Lemma foldM_fillParent_missing fuel (ps : list EventHash) :
  (size evs0 < fuel)%nat ->
  (∃ p, p ∈ ps ∧ IsZero p = false ∧ evs0 !! p = None) ->
  ∀ st, built evs0 e0 st -> foldM (fillParent fuel) st ps = Panic NilDeref.
Proof.
  intros Hfuel. induction ps as [|p ps IH]; intros (q & Hq & Hnz & Hnone) st Hb.
  - by apply elem_of_nil in Hq.
  - simpl. destruct (IsZero p) eqn:Hz.
    + rewrite fillParent_zero by done. simpl. apply IH; [|done].
      exists q. apply elem_of_cons in Hq as [->|Hq]; [congruence | done].
    + destruct (evs0 !! p) as [r0|] eqn:Hp.
      * destruct (fillParent_ok fuel st p) as [st1 Hst1]; [done..|eauto|].
        rewrite Hst1. simpl. apply IH.
        -- exists q. apply elem_of_cons in Hq as [->|Hq]; [congruence | done].
        -- by destruct (fillParent_rel _ _ _ _ Hb Hst1).
      * destruct fuel; [lia|]. by rewrite fillParent_missing.
Qed.

End Parents.

(** ** Add *)

Lemma setNodes_eq ss ev :
  setNodes ss ev
  = (mkStrongly (members ss)
       (<[Creator (interEvent ev) := creatorSlot ss (interEvent ev)]> (nodes ss)) (events ss),
     setCreatorN ev (creatorSlot ss (interEvent ev))).
Proof.
  unfold setNodes, creatorSlot.
  destruct (nodes ss !! Creator (interEvent ev)) as [c|] eqn:Hc; simpl; [|done].
  rewrite insert_id by done. by destruct ss.
Qed.

Lemma Add_indexed fuel ss e :
  is_Some (events ss !! Hash e) -> Add fuel ss e = Panic Fatal.
Proof. intros [r Hr]. unfold Add. by rewrite Hr. Qed.

Lemma Add_fresh fuel ss e :
  events ss !! Hash e = None ->
  Add fuel ss e =
    if decide (creatorSlot ss e < size (members ss))%nat then
      r ← foldM (fillParent fuel) (events ss, seeded ss e) (Parents e);
      Ok (mkStrongly (members ss) (<[Creator e := creatorSlot ss e]> (nodes ss))
                     (<[Hash e := r.2]> r.1))
    else Panic IndexOutOfRange.
Proof.
  intros Hfresh. unfold Add. rewrite Hfresh. cbv zeta. rewrite setNodes_eq.
  unfold fillEventRefs. simpl. case_decide as Hc.
  - rewrite !assign_lt by (by rewrite length_replicate). done.
  - rewrite assign_ge by (rewrite length_replicate; lia). done.
Qed.

Lemma seeded_length ss e :
  length (HighestSeen (seeded ss e)) = size (members ss).
Proof. simpl. by rewrite length_insert, length_replicate. Qed.

Lemma Add_added fuel ss e ss' :
  wf ss -> Add fuel ss e = Ok ss' -> ∃ r, added ss e ss' r.
Proof.
  intros Hwf Hadd.
  destruct (events ss !! Hash e) as [r0|] eqn:Hfresh.
  { rewrite Add_indexed in Hadd by eauto. discriminate. }
  rewrite (Add_fresh _ _ _ Hfresh) in Hadd. case_decide as Hc; [|discriminate].
  ok_inv Hadd. simplify_eq. destruct a as [evs r]. simpl.
  assert (sized (length (HighestSeen (seeded ss e))) (events ss)) as Hsz.
  { rewrite seeded_length. apply Hwf. }
  assert (CreatorN (seeded ss e) < length (HighestSeen (seeded ss e)))%nat as Hfit.
  { by rewrite seeded_length. }
  destruct (foldM_fillParent_rel _ _ Hsz Hfit _ _ _ _ (built_init _ _) Hok) as [Hb Hps].
  destruct Hb as [Hrel Hi Hcr Hl Hh Hm]. simpl in *.
  exists r. split; simpl; try done.
  - by rewrite Hcr.
  - by rewrite Hcr.
  - exists evs. by rewrite Hcr.
  - by rewrite Hcr, Hl.
  - by rewrite Hh, length_insert, length_replicate.
  - rewrite Hcr. apply Hm. apply list_lookup_insert_eq. by rewrite length_replicate.
Qed.

Lemma wf_Reset ss mm : wf (Reset ss mm).
Proof.
  split; simpl.
  - intros h r Hr. by rewrite lookup_empty in Hr.
  - exists (λ _, O). intros h r Hr. by rewrite lookup_empty in Hr.
  - intros c n Hc. by rewrite lookup_empty in Hc.
  - intros h r Hr. by rewrite lookup_empty in Hr.
  - intros c n Hc. by rewrite lookup_empty in Hc.
Qed.

Lemma added_wf ss e ss' r : wf ss -> added ss e ss' r -> wf ss'.
Proof.
  intros [Hsz [rank Hrk] Hslot Hcre Hseen]
         [Hfresh Hmm Hc Hnodes Hfits (evs & Hevs & Hrel) Hi Hlow Hlen Hhigh Hps].
  pose proof (proj1 (storeRel_None _ _ _ _ (Hash e) Hrel) Hfresh) as Hfresh'.
  assert (∀ h x, evs !! h = Some x -> h ≠ Hash e) as Hne by (intros h x Hx ->; congruence).
  split; rewrite ?Hmm, ?Hnodes, ?Hevs.
  - intros h x. destruct (decide (h = Hash e)) as [->|Hh].
    + rewrite lookup_insert_eq. intros [= <-].
      by rewrite Hlow, length_insert, length_replicate.
    + rewrite lookup_insert_ne by done. by apply (storeRel_sized _ _ _ _ _ Hrel).
  - exists (λ h, if decide (h = Hash e) then size (events ss) else rank h).
    pose proof (storeRel_ranked _ _ _ _ _ Hrel Hrk) as Hrk'.
    pose proof (storeRel_size _ _ _ _ Hrel) as Hsize.
    intros h x. rewrite map_size_insert_None by done.
    destruct (decide (h = Hash e)) as [->|Hh].
    + rewrite lookup_insert_eq. intros [= <-]. split; [lia|].
      intros p Hp Hnz. rewrite Hi in Hp. destruct (Hps p Hp Hnz) as [rp Hrp].
      assert (p ≠ Hash e) as Hpe by congruence.
      rewrite lookup_insert_ne by done. rewrite decide_False by done.
      destruct (storeRel_Some _ _ _ _ _ _ Hrel Hrp) as (rp' & Hrp' & _).
      split; [eauto|]. by destruct (Hrk p rp Hrp).
    + rewrite lookup_insert_ne by done. intros Hx.
      destruct (Hrk' h x Hx) as [Hlt Hpar]. split; [lia|].
      intros p Hp Hnz. destruct (Hpar p Hp Hnz) as [[rp Hrp] Hlp].
      pose proof (Hne p rp Hrp) as Hpe.
      rewrite lookup_insert_ne by done. rewrite decide_False by done. eauto.
  - intros c n. destruct (decide (c = Creator e)) as [->|Hce].
    + rewrite lookup_insert_eq. by intros [= <-].
    + rewrite lookup_insert_ne by done. apply Hslot.
  - intros h x. destruct (decide (h = Hash e)) as [->|Hh].
    + rewrite lookup_insert_eq. intros [= <-]. rewrite Hi. apply lookup_insert_eq.
    + rewrite lookup_insert_ne by done. intros Hx.
      destruct (storeRel_Some_inv _ _ _ _ _ _ Hrel Hx) as (x0 & Hx0 & Ht).
      rewrite (touched_inter _ _ _ _ Ht), (touched_creator _ _ _ _ Ht).
      pose proof (Hcre h x0 Hx0) as Hn.
      destruct (decide (Creator (interEvent x0) = Creator e)) as [Heq|Hce].
      * rewrite Heq, lookup_insert_eq. rewrite Heq in Hn.
        rewrite Hc. unfold creatorSlot. by rewrite Hn.
      * by rewrite lookup_insert_ne.
  - intros c n. destruct (decide (c = Creator e)) as [->|Hce].
    + intros _. exists (Hash e), r. by rewrite lookup_insert_eq, Hi.
    + rewrite lookup_insert_ne by done. intros Hn.
      destruct (Hseen c n Hn) as (h & x0 & Hx0 & Hcx).
      destruct (storeRel_Some _ _ _ _ _ _ Hrel Hx0) as (x & Hx & Ht).
      exists h, x. rewrite lookup_insert_ne by (by apply not_eq_sym, (Hne h x)).
      by rewrite (touched_inter _ _ _ _ Ht).
Qed.

Lemma reachable_wf ss : reachable ss -> wf ss.
Proof.
  induction 1 as [ss mm | fuel ss e ss' _ IH Hadd]; [apply wf_Reset|].
  destruct (Add_added _ _ _ _ IH Hadd) as [r Hr]. by eapply added_wf.
Qed.

(** The outcome of [Add] in every case, given enough rounds for the walks. *)
Lemma Add_Ok fuel ss e :
  wf ss -> (size (events ss) < fuel)%nat ->
  events ss !! Hash e = None ->
  (creatorSlot ss e < size (members ss))%nat ->
  (∀ p, p ∈ Parents e -> IsZero p = false -> is_Some (events ss !! p)) ->
  ∃ ss', Add fuel ss e = Ok ss'.
Proof.
  intros Hwf Hfuel Hfresh Hc Hps. destruct Hwf as [Hsz [rank Hrk] _ _ _].
  rewrite (Add_fresh _ _ _ Hfresh). rewrite decide_True by done.
  assert (sized (length (HighestSeen (seeded ss e))) (events ss)) as Hsz'.
  { by rewrite seeded_length. }
  assert (CreatorN (seeded ss e) < length (HighestSeen (seeded ss e)))%nat as Hfit.
  { by rewrite seeded_length. }
  destruct (foldM_fillParent_ok _ _ Hsz' Hfit rank Hrk fuel _ Hfuel Hps _ (built_init _ _))
    as [st' ->].
  simpl. eauto.
Qed.

Lemma Add_missing_parent fuel ss e :
  wf ss -> (size (events ss) < fuel)%nat ->
  events ss !! Hash e = None ->
  (creatorSlot ss e < size (members ss))%nat ->
  (∃ p, p ∈ Parents e ∧ IsZero p = false ∧ events ss !! p = None) ->
  Add fuel ss e = Panic NilDeref.
Proof.
  intros Hwf Hfuel Hfresh Hc Hps. destruct Hwf as [Hsz [rank Hrk] _ _ _].
  rewrite (Add_fresh _ _ _ Hfresh). rewrite decide_True by done.
  assert (sized (length (HighestSeen (seeded ss e))) (events ss)) as Hsz'.
  { by rewrite seeded_length. }
  assert (CreatorN (seeded ss e) < length (HighestSeen (seeded ss e)))%nat as Hfit.
  { by rewrite seeded_length. }
  by rewrite (foldM_fillParent_missing _ _ Hsz' Hfit rank Hrk fuel _ Hfuel Hps _
                (built_init _ _)).
Qed.

Lemma Add_overflow fuel ss e :
  events ss !! Hash e = None ->
  (size (members ss) ≤ creatorSlot ss e)%nat ->
  Add fuel ss e = Panic IndexOutOfRange.
Proof.
  intros Hfresh Hc. rewrite (Add_fresh _ _ _ Hfresh). rewrite decide_False by lia. done.
Qed.

(** ** The round bound does not change a result *)

Lemma lowestLoop_fuel node ref (fuel : nat) :
  ∀ (fuel' : nat) evs (l : list EventHash),
  (fuel ≤ fuel')%nat ->
  lowestLoop fuel evs l node ref ≠ OutOfFuel ->
  lowestLoop fuel' evs l node ref = lowestLoop fuel evs l node ref.
Proof.
  induction fuel as [|fuel IH]; intros fuel' evs l Hle Hrun; [done|].
  destruct fuel' as [|fuel']; [lia|]. simpl in *.
  destruct (lowestPass evs l node ref) as [[evs1 next]| |]; simpl in *; [|done..].
  destruct next; [done|]. apply IH; [lia | done].
Qed.

Lemma fillParent_fuel (fuel fuel' : nat) st (p : EventHash) :
  (fuel ≤ fuel')%nat ->
  fillParent fuel st p ≠ OutOfFuel ->
  fillParent fuel' st p = fillParent fuel st p.
Proof.
  intros Hle Hrun. destruct st as [evs e]. unfold fillParent, updateAllLowestSees in *.
  destruct (IsZero p); [done|].
  rewrite (lowestLoop_fuel _ _ fuel fuel'); [done..|].
  intros Hout. by rewrite Hout in Hrun.
Qed.

Lemma foldM_fillParent_fuel (fuel fuel' : nat) (ps : list EventHash) :
  (fuel ≤ fuel')%nat ->
  ∀ st, foldM (fillParent fuel) st ps ≠ OutOfFuel ->
  foldM (fillParent fuel') st ps = foldM (fillParent fuel) st ps.
Proof.
  intros Hle. induction ps as [|p ps IH]; intros st Hrun; simpl in *; [done|].
  rewrite (fillParent_fuel fuel fuel'); [|done|].
  - destruct (fillParent fuel st p) as [st1| |]; simpl in *; [by apply IH | done..].
  - intros Hout. by rewrite Hout in Hrun.
Qed.

Lemma Add_fuel (fuel fuel' : nat) ss (e : InterEvent) :
  (fuel ≤ fuel')%nat ->
  Add fuel ss e ≠ OutOfFuel ->
  Add fuel' ss e = Add fuel ss e.
Proof.
  intros Hle Hrun. unfold Add, fillEventRefs in *.
  destruct (events ss !! Hash e); [done|]. cbv zeta in *.
  destruct (assign _ _ _) as [l| |]; simpl in *; [|done..].
  destruct (assign _ _ _) as [h| |]; simpl in *; [|done..].
  rewrite (foldM_fillParent_fuel fuel fuel'); [done..|].
  intros Hout. by rewrite Hout in Hrun.
Qed.

(** ** The coherence test *)

Lemma coherentAt_Ok (e1 e2 : Event) (n : nat) :
  (n < length (LowestSees e2))%nat -> (n < length (HighestSeen e1))%nat ->
  coherentAt (Some e1) (Some e2) n = Ok (coherentSlot e1 e2 n).
Proof.
  intros H2 H1. unfold coherentAt, coherentSlot. simpl.
  destruct (index_lt _ _ H2) as (lo & -> & ->).
  destruct (index_lt _ _ H1) as (hi & -> & ->). simpl.
  by rewrite andb_comm.
Qed.

Lemma coherentAt_nil_whom (event1 : option Event) (n : nat) :
  coherentAt event1 None n = Panic NilDeref.
Proof. done. Qed.

Lemma coherentAt_nil_who (e2 : Event) (n : nat) :
  (n < length (LowestSees e2))%nat ->
  coherentAt None (Some e2) n = Panic NilDeref.
Proof.
  intros H2. unfold coherentAt. simpl. by destruct (index_lt _ _ H2) as (lo & _ & ->).
Qed.

Lemma weightedCount_perm (P : Peer -> bool) (l1 l2 : list (Peer * Z)) :
  l1 ≡ₚ l2 ->
  foldr (λ (mw : Peer * Z) acc, (if P mw.1 then mw.2 else 0) + acc) 0 l1
  = foldr (λ (mw : Peer * Z) acc, (if P mw.1 then mw.2 else 0) + acc) 0 l2.
Proof. induction 1; simpl; lia. Qed.

Lemma weightedCount_delete (P : Peer -> bool) (mm : gmap Peer Z) (m : Peer) (w : Z) :
  mm !! m = Some w ->
  weightedCount P mm = (if P m then w else 0) + weightedCount P (delete m mm).
Proof.
  intros Hm. unfold weightedCount.
  by rewrite <- (weightedCount_perm P _ _ (map_to_list_delete mm m w Hm)).
Qed.

Lemma weightedCount_ext (P Q : Peer -> bool) (mm : gmap Peer Z) :
  (∀ m w, mm !! m = Some w -> P m = Q m) ->
  weightedCount P mm = weightedCount Q mm.
Proof.
  intros Hext. unfold weightedCount.
  assert (∀ mw, mw ∈ map_to_list mm -> P mw.1 = Q mw.1) as Hl.
  { intros [m w] Hmw. apply elem_of_map_to_list in Hmw. by apply (Hext m w). }
  induction (map_to_list mm) as [|mw l IH]; simpl; [done|].
  rewrite (Hl mw) by (by left). rewrite IH; [done|]. intros ? ?. apply Hl. by right.
Qed.



Lemma slot_lt ss (m : Peer) (w : Z) :
  wf ss -> members ss !! m = Some w -> (slot ss m < size (members ss))%nat.
Proof.
  intros Hwf Hm. unfold slot. destruct (nodes ss !! m) as [n|] eqn:Hn; simpl.
  - by apply (wf_slot _ Hwf m).
  - assert (size (members ss) ≠ 0)%nat; [|lia].
    apply map_size_ne_0_lookup. eauto.
Qed.

Section CoherenceProofs.

Variable quorum : gmap Peer Z -> Z.

Lemma count_loop ss (e1 e2 : Event) (l : list (Peer * Z)) :
  (∀ mw, mw ∈ l -> members ss !! mw.1 = Some mw.2
                  ∧ (slot ss mw.1 < length (LowestSees e2))%nat
                  ∧ (slot ss mw.1 < length (HighestSeen e1))%nat) ->
  ∀ counter,
  foldM (λ counter (mw : Peer * Z),
           c ← coherentAt (Some e1) (Some e2) (slot ss mw.1);
           Ok (if c : bool then Count (members ss) counter mw.1 else counter))
        counter l
  = Ok (counter
        + foldr (λ (mw : Peer * Z) acc,
                   (if coherentSlot e1 e2 (slot ss mw.1) then mw.2 else 0) + acc) 0 l).
Proof.
  induction l as [|mw l IH]; intros Hl counter; simpl.
  - f_equal. lia.
  - destruct (Hl mw) as (Hw & H2 & H1); [by left|].
    rewrite coherentAt_Ok by done. simpl.
    rewrite IH by (intros ? ?; apply Hl; by right).
    f_equal. unfold Count. rewrite Hw. simpl.
    destruct (coherentSlot e1 e2 (slot ss mw.1)); lia.
Qed.

Lemma sufficientCoherence_indexed ss (e1 e2 : Event) :
  wf ss ->
  length (LowestSees e2) = size (members ss) ->
  length (HighestSeen e1) = size (members ss) ->
  sufficientCoherence quorum ss (Some e1) (Some e2)
  = Ok (quorum (members ss)
        <=? weightedCount (λ m, coherentSlot e1 e2 (slot ss m)) (members ss)).
Proof.
  intros Hwf H2 H1. unfold sufficientCoherence. rewrite count_loop.
  - simpl. unfold HasMajority, NewCounter, weightedCount. by rewrite Z.add_0_l.
  - intros [m w] Hmw. apply elem_of_map_to_list in Hmw. simpl.
    rewrite H1, H2. eauto using slot_lt.
Qed.

Lemma sufficientCoherence_nil ss (a b : option Event) :
  wf ss -> members ss ≠ ∅ ->
  (∀ e2, b = Some e2 -> length (LowestSees e2) = size (members ss)) ->
  a = None ∨ b = None ->
  sufficientCoherence quorum ss a b = Panic NilDeref.
Proof.
  intros Hwf Hne Hlen Hnil. unfold sufficientCoherence.
  destruct (map_to_list (members ss)) as [|[m w] l] eqn:Hl.
  { by apply map_to_list_empty_iff in Hl. }
  assert (members ss !! m = Some w) as Hm.
  { apply elem_of_map_to_list. rewrite Hl. by left. }
  simpl. destruct b as [e2|]; [|done].
  destruct Hnil as [->|?]; [|done].
  rewrite coherentAt_nil_who; [done|].
  rewrite (Hlen e2) by done. eauto using slot_lt.
Qed.

Lemma See_indexed ss (who whom : EventHash) (e1 e2 : Event) :
  wf ss ->
  events ss !! who = Some e1 ->
  events ss !! whom = Some e2 ->
  See quorum ss who whom
  = Ok (quorum (members ss)
        <=? weightedCount (λ m, coherentSlot e1 e2 (slot ss m)) (members ss)).
Proof.
  intros Hwf H1 H2. unfold See. rewrite H1, H2.
  apply sufficientCoherence_indexed; [done|..].
  - by destruct (wf_sized _ Hwf whom e2 H2).
  - by destruct (wf_sized _ Hwf who e1 H1).
Qed.

End CoherenceProofs.



Lemma highestFrom_mono (ps : list Z) :
  ∀ (i : nat) (hs hs' : list Z), highestFrom i ps hs = Ok hs' ->
  ∀ j x, hs !! j = Some x -> ∃ y, hs' !! j = Some y ∧ x <= y.
Proof.
  induction ps as [|n ps IH]; intros i hs hs' Hrun j x Hj; simpl in Hrun.
  - simplify_eq. exists x. split; [done|lia].
  - ok_inv Hrun. ok_inv Hrun. apply index_Ok in Hok.
    destruct (Z.ltb_spec a n) as [Hlt|Hge].
    + apply assign_Ok in Hok0 as [Hi ->].
      destruct (decide (i = j)) as [->|Hne].
      * destruct (IH _ _ _ Hrun j n) as (y & Hy & Hle);
          [by apply list_lookup_insert_eq|].
        exists y. split; [done|]. simplify_eq. lia.
      * apply (IH _ _ _ Hrun). by rewrite list_lookup_insert_ne.
    + simplify_eq. by apply (IH _ _ _ Hrun).
Qed.

Lemma parents_indexed_dec (evs : gmap EventHash Event) (ps : list EventHash) :
  (∀ p, p ∈ ps -> IsZero p = false -> is_Some (evs !! p))
  ∨ (∃ p, p ∈ ps ∧ IsZero p = false ∧ evs !! p = None).
Proof.
  induction ps as [|p ps [IH|(q & Hq & Hnz & Hnone)]].
  - left. intros p Hp. by apply elem_of_nil in Hp.
  - destruct (IsZero p) eqn:Hz.
    + left. intros q [->|Hq]%elem_of_cons; [congruence | auto].
    + destruct (evs !! p) as [r|] eqn:Hp.
      * left. intros q [->|Hq]%elem_of_cons; [eauto | auto].
      * right. exists p. split; [by left | done].
  - right. exists q. split; [by right | done].
Qed.

Lemma lowestPass_rejected (evs : gmap EventHash Event) (h : EventHash)
    (rest : list EventHash) (node : nat) (ref : Z) (r : Event) :
  evs !! h = Some r -> setLowestSeesIfMin r node ref = Ok (r, false) ->
  lowestPass evs (h :: rest) node ref = lowestPass evs rest node ref.
Proof.
  intros Hr Hset. simpl. rewrite Hr. simpl. rewrite Hset. simpl.
  rewrite insert_id by done.
  by destruct (lowestPass evs rest node ref) as [[evs' next]| |].
Qed.

(** ** What later Adds do to a record *)

Lemma Add_record (fuel : nat) ss (e : InterEvent) ss' (h : EventHash) (r : Event) :
  wf ss -> Add fuel ss e = Ok ss' -> events ss !! h = Some r ->
  ∃ r', events ss' !! h = Some r'
    ∧ interEvent r' = interEvent r
    ∧ CreatorN r' = CreatorN r
    ∧ HighestSeen r' = HighestSeen r
    ∧ ∀ n old, LowestSees r !! n = Some old ->
        ∃ new, LowestSees r' !! n = Some new
          ∧ (new = old
             ∨ (new = Index e
                ∧ (old = 0 ∨ Index e < old
                   ∨ (n = CreatorN r ∧ old <= Index (interEvent r))))).
Proof.
  intros Hwf Hadd Hr.
  destruct (Add_added _ _ _ _ Hwf Hadd) as [rn Hrn].
  destruct Hrn as [Hfresh _ _ _ _ (evs & Hevs & Hrel) _ _ _ _ _].
  destruct (storeRel_Some _ _ _ _ _ _ Hrel Hr) as (r' & Hr' & Ht).
  exists r'. split.
  { rewrite Hevs, lookup_insert_ne; [done|]. intros <-. congruence. }
  split; [apply Ht|]. split; [apply Ht|]. split; [apply Ht|].
  intros n old Hold. destruct (touched_lowest _ _ _ _ Ht) as [->|(-> & cur & Hcur & Hacc)].
  { eauto. }
  destruct (decide (CreatorN rn = n)) as [<-|Hne].
  - exists (Index e). split.
    { apply list_lookup_insert_eq. by eapply lookup_lt_Some. }
    right. split; [done|]. simplify_eq. unfold accepts in Hacc.
    apply orb_true_iff in Hacc as [[H0|Hlt]%orb_true_iff | [Hn Hle]%andb_true_iff].
    + left. by apply Z.eqb_eq.
    + right. left. by apply Z.ltb_lt.
    + right. right. split; [by apply Nat.eqb_eq | by apply Z.leb_le].
  - exists old. rewrite list_lookup_insert_ne by done. auto.
Qed.

Lemma later_reachable ss ss' : reachable ss -> later ss ss' -> reachable ss'.
Proof.
  intros Hreach. induction 1 as [|fuel ss ss1 e ss2 _ IH _ Hadd]; [done|].
  eapply reach_Add; [by apply IH | done].
Qed.

Lemma later_record ss ss' (h : EventHash) (r : Event) :
  reachable ss -> later ss ss' -> events ss !! h = Some r ->
  ∃ r', events ss' !! h = Some r'
    ∧ interEvent r' = interEvent r
    ∧ CreatorN r' = CreatorN r
    ∧ HighestSeen r' = HighestSeen r
    ∧ ∀ n old, n ≠ CreatorN r -> LowestSees r !! n = Some old -> old ≠ 0 ->
        ∃ new, LowestSees r' !! n = Some new ∧ new ≠ 0 ∧ new <= old.
Proof.
  intros Hreach Hlater Hr.
  induction Hlater as [ss|fuel ss ss1 e ss2 Hlater IH Hidx Hadd].
  - exists r. repeat (split; [done|]). intros n old _ Hold Hnz.
    exists old. split; [done|]. split; [done|lia].
  - destruct (IH Hreach Hr) as (r1 & Hr1 & Hi1 & Hc1 & Hh1 & Hl1).
    pose proof (reachable_wf _ (later_reachable _ _ Hreach Hlater)) as Hwf1.
    destruct (Add_record fuel ss1 e ss2 h r1 Hwf1 Hadd Hr1)
      as (r2 & Hr2 & Hi2 & Hc2 & Hh2 & Hl2).
    exists r2. split; [done|]. repeat (split; [congruence|]).
    intros n old Hn Hold Hnz.
    destruct (Hl1 n old Hn Hold Hnz) as (mid & Hmid & Hmnz & Hmle).
    destruct (Hl2 n mid Hmid) as (new & Hnew & Hcase).
    exists new. split; [done|].
    destruct Hcase as [->|[-> [?|[?|[? _]]]]]; [done| lia | lia | congruence].
Qed.

(** * The claims about the ancestry index *)

Section Claims.

Variable quorum : gmap Peer Z -> Z.


(** C2, as the code has it.  [See] with a hash that has no record, as
    either argument, fails with a nil dereference as soon as the validator
    set has a member; with an empty validator set it returns the majority
    test of an empty count: false when the threshold of the empty set is
    positive, true otherwise. *)
Theorem See_unindexed ss (who whom : EventHash) :
  reachable ss ->
  events ss !! who = None ∨ events ss !! whom = None ->
  See quorum ss who whom
  = if decide (members ss = ∅) then Ok (quorum ∅ <=? 0) else Panic NilDeref.
Proof.
  intros Hwf%reachable_wf Hnil. unfold See. case_decide as Hmm.
  - unfold sufficientCoherence. rewrite Hmm, map_to_list_empty. done.
  - apply sufficientCoherence_nil; [done..| |].
    + intros e2 He2. by destruct (wf_sized _ Hwf whom e2 He2).
    + destruct Hnil as [->| ->]; auto.
Qed.

(** C3, as the code has it.  Right after [Add] has indexed an event [e]
    with a nonzero sequence number, [See(e, e)] returns whether the weight
    of the members that share the slot of [e]'s creator reaches the
    majority threshold. *)
Theorem See_self_after_Add (fuel : nat) ss (e : InterEvent) ss' :
  reachable ss ->
  Add fuel ss e = Ok ss' ->
  Index e ≠ 0 ->
  See quorum ss' (Hash e) (Hash e)
  = Ok (quorum (members ss')
        <=? weightedCount (λ m, bool_decide (slot ss' m = slot ss' (Creator e)))
                          (members ss')).
Proof.
  intros Hreach Hadd Hidx.
  pose proof (reachable_wf _ Hreach) as Hwf.
  destruct (Add_added _ _ _ _ Hwf Hadd) as [r Hr].
  pose proof (added_wf _ _ _ _ Hwf Hr) as Hwf'.
  destruct Hr as [Hfresh Hmm Hc Hnodes Hfits (evs & Hevs & Hrel) Hi Hlow Hlen
                  (y & Hy & Hle) Hps].
  assert (events ss' !! Hash e = Some r) as Hr by (by rewrite Hevs, lookup_insert_eq).
  rewrite (See_indexed quorum ss' _ _ r r) by done.
  do 2 f_equal. apply weightedCount_ext. intros m w Hm.
  assert (slot ss' (Creator e) = CreatorN r) as ->.
  { unfold slot. by rewrite Hnodes, lookup_insert_eq. }
  pose proof (slot_lt _ _ _ Hwf' Hm) as Hlt. rewrite Hmm in Hlt.
  unfold coherentSlot. rewrite Hlow.
  destruct (decide (slot ss' m = CreatorN r)) as [->|Hne].
  - rewrite bool_decide_eq_true_2 by done.
    rewrite list_lookup_insert_eq by (by rewrite length_replicate). rewrite Hy.
    apply andb_true_intro. split; [|by apply Z.leb_le].
    apply negb_true_iff. by apply Z.eqb_neq.
  - rewrite bool_decide_eq_false_2 by done.
    rewrite list_lookup_insert_ne by done.
    rewrite lookup_replicate_2 by done.
    by destruct (HighestSeen r !! slot ss' m).
Qed.

(** C4, as the code has it.  Over any sequence of later [Add] calls (of
    events with nonzero sequence numbers), the HighestSeen array of a record
    already indexed stays as it is, and each of its LowestSees entries other
    than the record's own creator slot, once nonzero, stays nonzero and only
    decreases or stays equal.  One [Add] of [e] leaves a LowestSees entry as
    it is or overwrites it with [e]'s sequence number, and overwrites only
    an entry that is zero, or greater than that number, or the record's own
    creator slot while its value does not exceed the record's own sequence
    number.  While a record is built, [updateAllHighestSeen] never lowers an
    entry. *)
Theorem Add_monotone ss ss' (h : EventHash) (r : Event) :
  reachable ss ->
  later ss ss' ->
  events ss !! h = Some r ->
  (∃ r', events ss' !! h = Some r'
     ∧ HighestSeen r' = HighestSeen r
     ∧ ∀ n old, n ≠ CreatorN r -> LowestSees r !! n = Some old -> old ≠ 0 ->
         ∃ new, LowestSees r' !! n = Some new ∧ new ≠ 0 ∧ new <= old)
  ∧ (∀ fuel e ss1, Add fuel ss e = Ok ss1 ->
       ∃ r1, events ss1 !! h = Some r1
         ∧ ∀ n old, LowestSees r !! n = Some old ->
             ∃ new, LowestSees r1 !! n = Some new
               ∧ (new = old
                  ∨ (new = Index e
                     ∧ (old = 0 ∨ Index e < old
                        ∨ (n = CreatorN r ∧ old <= Index (interEvent r))))))
  ∧ (∀ x parent x', updateAllHighestSeen x parent = Ok x' ->
       ∀ j v, HighestSeen x !! j = Some v ->
         ∃ v', HighestSeen x' !! j = Some v' ∧ v <= v').
Proof.
  intros Hreach Hlater Hr. split; [|split].
  - destruct (later_record ss ss' h r Hreach Hlater Hr) as (r' & Hr' & _ & _ & Hh & Hl).
    eauto.
  - intros fuel e ss1 Hadd.
    destruct (Add_record fuel ss e ss1 h r (reachable_wf _ Hreach) Hadd Hr)
      as (r1 & Hr1 & _ & _ & _ & Hl).
    eauto.
  - intros x parent x' Hup j v Hj. unfold updateAllHighestSeen in Hup.
    ok_inv Hup. simplify_eq. simpl. by eapply highestFrom_mono.
Qed.

(** C5. During an [Add] into an index built parents first, every
    back-propagation walk reaches an empty work list, and so does the [Add]
    as a whole; a record at which [setLowestSeesIfMin] declines the update
    pushes nothing. *)
Theorem Add_walks_terminate (fuel : nat) ss (e : InterEvent) :
  reachable ss ->
  (size (events ss) < fuel)%nat ->
  events ss !! Hash e = None ->
  (creatorSlot ss e < size (members ss))%nat ->
  (∀ p, p ∈ Parents e -> IsZero p = false -> is_Some (events ss !! p)) ->
  (∃ ss', Add fuel ss e = Ok ss')
  ∧ (∀ p, p ∈ Parents e -> IsZero p = false ->
       ∃ evs', updateAllLowestSees fuel (events ss) p (creatorSlot ss e) (Index e) = Ok evs')
  ∧ (∀ evs h rest node ref r, evs !! h = Some r ->
       setLowestSeesIfMin r node ref = Ok (r, false) ->
       lowestPass evs (h :: rest) node ref = lowestPass evs rest node ref).
Proof.
  intros Hwf%reachable_wf Hfuel Hfresh Hc Hps.
  split; [by apply Add_Ok|]. split; [|apply lowestPass_rejected].
  intros p Hp Hnz. destruct (Hps p Hp Hnz) as [rp Hrp].
  destruct Hwf as [Hsz [rank Hrk] _ _ _].
  destruct (lowestLoop_ok _ (creatorSlot ss e) (Index e) _ Hsz Hc rank Hrk fuel
              (size (events ss)) [p] (events ss) Hfuel) as (evs' & Hloop & _).
  - intros k ->%list_elem_of_singleton. split; [eauto|]. by destruct (Hrk p rp Hrp).
  - apply storeRel_refl.
  - eauto.
Qed.

End Claims.

(** C9. [Add] gives the arrays of a new record the size of the validator
    set and the creator the next free slot, in first-seen order, without
    comparing the two.  The slot is within the arrays as long as the
    creators seen so far, the new one included, are no more than the
    validator set has members; the event of a further creator makes [Add]
    index out of range.  The creators seen so far are those of the indexed
    events. *)
Theorem Add_creator_slots (fuel : nat) ss (e : InterEvent) :
  reachable ss ->
  (size (events ss) < fuel)%nat ->
  events ss !! Hash e = None ->
  (Add fuel ss e = Panic IndexOutOfRange
   ↔ nodes ss !! Creator e = None ∧ (size (members ss) ≤ size (nodes ss))%nat)
  ∧ (∀ ss', Add fuel ss e = Ok ss' ->
       ∃ r, events ss' !! Hash e = Some r
         ∧ length (LowestSees r) = size (members ss)
         ∧ length (HighestSeen r) = size (members ss)
         ∧ CreatorN r = default (size (nodes ss)) (nodes ss !! Creator e)
         ∧ (CreatorN r < size (members ss))%nat)
  ∧ (∀ c, is_Some (nodes ss !! c)
          ↔ ∃ h r, events ss !! h = Some r ∧ Creator (interEvent r) = c).
Proof.
  intros Hwf%reachable_wf Hfuel Hfresh. split; [|split].
  - split.
    + intros Hadd.
      destruct (decide (creatorSlot ss e < size (members ss))%nat) as [Hc|Hc].
      * destruct (parents_indexed_dec (events ss) (Parents e)) as [Hps|Hps].
        -- destruct (Add_Ok fuel ss e) as [ss' Hok]; [done..|]. congruence.
        -- rewrite Add_missing_parent in Hadd by done. discriminate.
      * unfold creatorSlot in Hc.
        destruct (nodes ss !! Creator e) as [n|] eqn:Hn; simpl in Hc.
        -- pose proof (wf_slot _ Hwf _ _ Hn). lia.
        -- split; [done|lia].
    + intros [Hn Hle]. apply Add_overflow; [done|].
      unfold creatorSlot. by rewrite Hn.
  - intros ss' Hadd. destruct (Add_added _ _ _ _ Hwf Hadd) as [r Hr].
    destruct Hr as [_ _ Hc _ Hfits (evs & Hevs & _) _ Hlow Hlen _ _].
    exists r. rewrite Hevs, lookup_insert_eq.
    rewrite Hlow, length_insert, length_replicate. done.
  - intros c. split.
    + intros [n Hn]. by apply (wf_seen _ Hwf c n).
    + intros (h & r & Hr & <-). rewrite (wf_creator _ Hwf h r Hr). eauto.
Qed.

Section SlotZero.

Variable quorum : gmap Peer Z -> Z.

(** C10. A member of the validator set that created none of the indexed
    events reads slot 0 of the creator-slot table, and its weight is counted
    exactly when the entries of slot 0 pass the test. *)
Theorem See_counts_unseen_member_at_slot_0 ss (who whom : EventHash) (e1 e2 : Event)
    (m : Peer) (w : Z) :
  reachable ss ->
  events ss !! who = Some e1 ->
  events ss !! whom = Some e2 ->
  members ss !! m = Some w ->
  (∀ h r, events ss !! h = Some r -> Creator (interEvent r) ≠ m) ->
  slot ss m = O
  ∧ See quorum ss who whom
    = Ok (quorum (members ss)
          <=? (if coherentSlot e1 e2 0 then w else 0)
              + weightedCount (λ m', coherentSlot e1 e2 (slot ss m')) (delete m (members ss))).
Proof.
  intros Hreach H1 H2 Hm Hnever.
  pose proof (reachable_wf _ Hreach) as Hwf.
  assert (slot ss m = O) as Hslot.
  { unfold slot. destruct (nodes ss !! m) as [n|] eqn:Hn; [|done].
    destruct (wf_seen _ Hwf m n Hn) as (h & r & Hr & Hc). by destruct (Hnever h r Hr). }
  split; [done|].
  rewrite (See_indexed quorum ss who whom e1 e2) by done.
  by rewrite (weightedCount_delete _ _ m w Hm), Hslot.
Qed.

End SlotZero.

(** * The claims on the example indexes *)

Import Scenario.

Lemma reachable_solo1 : reachable solo1.
Proof. apply (reach_Add 4 (New solo) a1); [apply reach_Reset | by vm_compute]. Defined.

Lemma reachable_solo2 : reachable solo2.
Proof. apply (reach_Add 4 solo1 a2); [apply reachable_solo1 | by vm_compute]. Defined.

Lemma reachable_four1 : reachable four1.
Proof. apply (reach_Add 4 (New four) a1); [apply reach_Reset | by vm_compute]. Defined.

Lemma reachable_four2 : reachable four2.
Proof. apply (reach_Add 4 four1 b1); [apply reachable_four1 | by vm_compute]. Defined.



(** C2 does not hold: on the index that holds only [a1], [See] with the
    unknown hash 99 fails on either side instead of returning false. *)
Lemma See_unindexed_counterexample :
  reachable solo1
  ∧ events solo1 !! 99%N = None
  ∧ See twoThirds solo1 11 99 = Panic NilDeref
  ∧ See twoThirds solo1 99 11 = Panic NilDeref
  ∧ See twoThirds solo1 11 99 ≠ Ok false
  ∧ See twoThirds solo1 99 11 ≠ Ok false.
Proof.
  split; [apply reachable_solo1|]. repeat split; by vm_compute.
Qed.

Lemma See_unindexed_witness :
  reachable solo1
  ∧ (events solo1 !! 11%N = None ∨ events solo1 !! 99%N = None)
  ∧ See twoThirds solo1 11 99 = Panic NilDeref
  ∧ reachable (New ∅)
  ∧ (events (New ∅) !! 11%N = None ∨ events (New ∅) !! 99%N = None)
  ∧ twoThirds ∅ = 1
  ∧ See twoThirds (New ∅) 11 99 = Ok false.
Proof.
  split; [apply reachable_solo1|]. split; [right; by vm_compute|].
  split; [|split; [apply reach_Reset|]; split; [left; by vm_compute|]; split; [by vm_compute|]].
  - rewrite (See_unindexed twoThirds solo1 11 99);
      [by vm_compute | apply reachable_solo1 | right; by vm_compute].
  - rewrite (See_unindexed twoThirds (New ∅) 11 99);
      [by vm_compute | apply reach_Reset | left; by vm_compute].
Defined.

(** C3 does not hold: with four validators of weight 1 and threshold 3,
    bob's event does not see itself once alice and bob have an event each;
    and with a single validator, alice's first event stops seeing itself
    when her second event is added. *)
Lemma See_self_counterexample :
  reachable four2
  ∧ is_Some (events four2 !! 21%N)
  ∧ See twoThirds four2 21 21 = Ok false
  ∧ reachable solo2
  ∧ is_Some (events solo2 !! 11%N)
  ∧ See twoThirds solo2 11 11 = Ok false.
Proof.
  split; [apply reachable_four2|].
  split; [apply not_eq_None_Some; by vm_compute|]. split; [by vm_compute|].
  split; [apply reachable_solo2|].
  split; [apply not_eq_None_Some; by vm_compute | by vm_compute].
Qed.

Lemma See_self_after_Add_witness :
  reachable (New four)
  ∧ Add 4 (New four) a1 = Ok four1
  ∧ Index a1 ≠ 0
  ∧ See twoThirds four1 (Hash a1) (Hash a1) = Ok true.
Proof.
  split; [apply reach_Reset|]. split; [by vm_compute|]. split; [by vm_compute|].
  rewrite (See_self_after_Add twoThirds 4 (New four) a1 four1);
    [by vm_compute | apply reach_Reset | by vm_compute..].
Defined.

(** C4 does not hold for LowestSees: adding alice's second event raises
    the entry of her first event in her own slot from 1 to 2. *)
Lemma Add_monotone_counterexample :
  reachable solo1
  ∧ Add 4 solo1 a2 = Ok solo2
  ∧ LowestSees <$> events solo1 !! 11%N = Some [1]
  ∧ LowestSees <$> events solo2 !! 11%N = Some [2].
Proof.
  split; [apply reachable_solo1|]. repeat split; by vm_compute.
Qed.

Lemma later_solo2 : later solo1 solo2.
Proof.
  apply (later_Add 4 solo1 solo1 a2); [apply later_refl | by vm_compute..].
Defined.

Lemma Add_monotone_witness :
  reachable solo1
  ∧ later solo1 solo2
  ∧ events solo1 !! 11%N = Some (mkEvent a1 0 [1] [1])
  ∧ ∃ r', events solo2 !! 11%N = Some r' ∧ HighestSeen r' = [1].
Proof.
  split; [apply reachable_solo1|]. split; [apply later_solo2|]. split; [by vm_compute|].
  destruct (Add_monotone solo1 solo2 11 (mkEvent a1 0 [1] [1]))
    as [(r' & Hr' & Hh & _) _]; [apply reachable_solo1 | apply later_solo2 | by vm_compute |].
  exists r'. split; [exact Hr' | exact Hh].
Defined.

Lemma Add_walks_terminate_witness :
  reachable solo1
  ∧ (size (events solo1) < 4)%nat
  ∧ events solo1 !! Hash a2 = None
  ∧ (creatorSlot solo1 a2 < size (members solo1))%nat
  ∧ (∀ p, p ∈ Parents a2 -> IsZero p = false -> is_Some (events solo1 !! p))
  ∧ ∃ ss', Add 4 solo1 a2 = Ok ss'.
Proof.
  assert (∀ p, p ∈ Parents a2 -> IsZero p = false -> is_Some (events solo1 !! p)) as Hps.
  { intros p ->%list_elem_of_singleton _. apply not_eq_None_Some. by vm_compute. }
  split; [apply reachable_solo1|]. split; [vm_compute; lia|]. split; [by vm_compute|].
  split; [vm_compute; lia|]. split; [exact Hps|].
  apply (Add_walks_terminate 4 solo1 a2);
    [apply reachable_solo1 | vm_compute; lia | by vm_compute | vm_compute; lia | exact Hps].
Defined.

Lemma Add_creator_slots_witness :
  reachable solo1
  ∧ (size (events solo1) < 4)%nat
  ∧ events solo1 !! Hash b1 = None
  ∧ nodes solo1 !! Creator b1 = None
  ∧ (size (members solo1) ≤ size (nodes solo1))%nat
  ∧ Add 4 solo1 b1 = Panic IndexOutOfRange.
Proof.
  split; [apply reachable_solo1|]. split; [vm_compute; lia|]. split; [by vm_compute|].
  split; [by vm_compute|]. split; [vm_compute; lia|].
  apply (Add_creator_slots 4 solo1 b1);
    [apply reachable_solo1 | vm_compute; lia | by vm_compute |].
  split; [by vm_compute | vm_compute; lia].
Defined.

Lemma See_counts_unseen_member_at_slot_0_witness :
  reachable four1
  ∧ events four1 !! 11%N = Some (mkEvent a1 0 [1; 0; 0; 0] [1; 0; 0; 0])
  ∧ members four1 !! bob = Some 1
  ∧ (∀ h r, events four1 !! h = Some r -> Creator (interEvent r) ≠ bob)
  ∧ slot four1 bob = O
  ∧ See twoThirds four1 11 11 = Ok true.
Proof.
  assert (∀ h r, events four1 !! h = Some r -> Creator (interEvent r) ≠ bob) as Hnever.
  { apply (bool_decide_unpack
             (map_Forall (λ _ r, Creator (interEvent r) ≠ bob) (events four1))).
    by vm_compute. }
  split; [apply reachable_four1|]. split; [by vm_compute|]. split; [by vm_compute|].
  split; [exact Hnever|].
  destruct (See_counts_unseen_member_at_slot_0 twoThirds four1 11 11
              (mkEvent a1 0 [1; 0; 0; 0] [1; 0; 0; 0])
              (mkEvent a1 0 [1; 0; 0; 0] [1; 0; 0; 0]) bob 1)
    as [Hslot Hsee]; [apply reachable_four1 | by vm_compute.. | exact Hnever |].
  split; [exact Hslot|]. rewrite Hsee. by vm_compute.
Defined.

(** The spec's majority example: four validators of weight 1 with one
    event each, then [b2] on top of [b1] and [a1], [c2] on top of [c1] and
    [b2], [d2] on top of [d1] and [c2].  [a1] is seen through two chains
    from [b2] and through three from [c2]. *)
Example majority_of_four :
  ∃ ss, chain = Ok ss
    ∧ reachable ss
    ∧ See twoThirds ss (Hash b2) (Hash a1) = Ok false
    ∧ See twoThirds ss (Hash c2) (Hash a1) = Ok true
    ∧ See twoThirds ss (Hash d2) (Hash a1) = Ok true.
Proof.
  assert (∀ es ss ss', reachable ss -> foldM (Add 8) ss es = Ok ss' -> reachable ss')
    as Hrun.
  { induction es as [|e es IH]; intros ss ss' Hss Hes; simpl in Hes; [by simplify_eq|].
    ok_inv Hes. eapply IH; [|done]. by eapply reach_Add. }
  destruct chain as [ss| |] eqn:Hchain; [|by vm_compute in Hchain..].
  exists ss. split; [done|].
  split; [exact (Hrun _ (New four) ss (reach_Reset _ four) Hchain)|].
  assert (Ok ss = chain) as Hss by done. clear Hchain.
  vm_compute in Hss. injection Hss as ->. repeat split; by vm_compute.
Qed.

End SeeingProofs.

Module EmitterProofs.
Import Emitter EmitterScenario.

(** ** The spill loop *)

Lemma event_eta (e : Event) : mkEvent (header e) (Transactions e) = e.
Proof. by destruct e. Qed.

Lemma refundTx_exact (tx : Transaction) (h : EventHeaderData) :
  0 <= Gas tx <= GasPowerUsed h -> GasPowerUsed h < 2 ^ 64 ->
  0 <= GasPowerLeft h -> GasPowerLeft h + Gas tx < 2 ^ 64 ->
  refundTx tx h = mkHeader (GasPowerUsed h - Gas tx) (GasPowerLeft h + Gas tx).
Proof.
  intros Hg Hu Hl Hs. unfold refundTx, wrap64.
  rewrite !Z.mod_small by lia. done.
Qed.

Section Spill.

Variable MaxEventSize : Z.
Variable CalcSize : Event -> Z.

Lemma oversized_snoc (e : Event) :
  oversized MaxEventSize CalcSize e = true ->
  ∃ txs tx, Transactions e = txs ++ [tx]
    ∧ spillOne e tx = mkEvent (refundTx tx (header e)) txs
    ∧ Transactions e !! (length (Transactions e) - 1)%nat = Some tx.
Proof.
  unfold oversized. intros [_ Hlen%Nat.ltb_lt]%andb_true_iff.
  destruct (Transactions e) as [|t l] eqn:Htxs using rev_ind; [simpl in Hlen; lia|].
  clear IHl. exists l, t. split; [done|].
  assert (length (l ++ [t]) - 1 = length l)%nat as Hpred.
  { rewrite length_app. simpl. lia. }
  unfold spillOne. rewrite Htxs, Hpred, take_app_length. split; [done|].
  by apply list_lookup_middle.
Qed.

Lemma oversized_true (e : Event) :
  oversized MaxEventSize CalcSize e = true
  ↔ MaxEventSize < CalcSize e ∧ Transactions e ≠ [].
Proof.
  unfold oversized. rewrite andb_true_iff, Z.ltb_lt, Nat.ltb_lt.
  destruct (Transactions e); simpl; split; intros [? ?]; (split; [done|]);
    try done; lia.
Qed.

Lemma oversized_false (e : Event) :
  oversized MaxEventSize CalcSize e = false
  ↔ CalcSize e <= MaxEventSize ∨ Transactions e = [].
Proof.
  unfold oversized. rewrite andb_false_iff, Z.ltb_ge, Nat.ltb_ge.
  destruct (Transactions e); simpl; split; intros [?|?]; auto; try done; lia.
Qed.

Lemma spill_here (fuel : nat) (e : Event) :
  oversized MaxEventSize CalcSize e = false ->
  spill MaxEventSize CalcSize (S fuel) e = Ok e.
Proof. intros Hno. simpl. by rewrite Hno. Qed.

Lemma spill_next (fuel : nat) (e : Event) (txs : list Transaction) (tx : Transaction) :
  oversized MaxEventSize CalcSize e = true ->
  Transactions e = txs ++ [tx] ->
  spill MaxEventSize CalcSize (S fuel) e
  = spill MaxEventSize CalcSize fuel (mkEvent (refundTx tx (header e)) txs).
Proof.
  intros Hover Htxs. simpl. rewrite Hover.
  destruct (oversized_snoc e Hover) as (txs' & tx' & Htxs' & Hone & ->).
  rewrite Htxs in Htxs'. apply app_inj_tail in Htxs' as [<- <-]. by rewrite Hone.
Qed.

Lemma spill_spec (fuel : nat) :
  ∀ e, (length (Transactions e) < fuel)%nat ->
  ∃ e' removed,
    spill MaxEventSize CalcSize fuel e = Ok e'
    ∧ oversized MaxEventSize CalcSize e' = false
    ∧ Transactions e = Transactions e' ++ removed
    ∧ header e' = foldr refundTx (header e) removed
    ∧ ∀ r1 r2, removed = r1 ++ r2 -> r1 ≠ [] ->
        oversized MaxEventSize CalcSize
          (mkEvent (foldr refundTx (header e) r2) (Transactions e' ++ r1)) = true.
Proof.
  induction fuel as [|fuel IH]; intros e Hlen; [lia|].
  destruct (oversized MaxEventSize CalcSize e) eqn:Hover.
  - destruct (oversized_snoc e Hover) as (txs & tx & Htxs & _ & _).
    rewrite (spill_next fuel e txs tx Hover Htxs).
    destruct (IH (mkEvent (refundTx tx (header e)) txs)) as (e' & removed & Hrun & Hstop & Hkept & Hhdr & Hmin).
    { simpl. rewrite Htxs, length_app in Hlen. simpl in Hlen. lia. }
    simpl in Hkept, Hhdr, Hmin.
    exists e', (removed ++ [tx]). split; [done|]. split; [done|].
    split; [by rewrite Htxs, Hkept, <- app_assoc|].
    split; [by rewrite foldr_app|].
    intros r1 r2 Hsplit Hr1. destruct r2 as [|t r2 _] using rev_ind.
    + rewrite app_nil_r in Hsplit. subst r1. simpl.
      by rewrite app_assoc, <- Hkept, <- Htxs, event_eta.
    + rewrite app_assoc in Hsplit. apply app_inj_tail in Hsplit as [-> <-].
      rewrite foldr_app. simpl. by apply Hmin.
  - exists e, []. rewrite spill_here by done. split; [done|]. split; [done|].
    split; [by rewrite app_nil_r|]. split; [done|].
    intros r1 r2 Hsplit Hr1. symmetry in Hsplit.
    apply app_eq_nil in Hsplit as [-> _]. done.
Qed.

End Spill.

Section Claims.

Variables MaxGasPowerUsed MaxEventSize : Z.
Variable CalcSize : Event -> Z.
Variable gasPower : GasPowerConfig.
Variable config : EmitterConfig.

(** C8, as the code has it.  With a self-parent and GasPowerLeft exactly at
    EmergencyThreshold, [isAllowedToEmit] returns false when the
    self-parent has one unit more, provided the pacing step does not divide
    by a zero NoTxsThreshold; it returns true when the two are equal,
    provided the pacing step does not hold the event back. *)
Theorem isAllowedToEmit_at_emergency (elapsed : Z) (e : Event) (parent : EventHeaderData) :
  GasPowerLeft (header e) = EmergencyThreshold gasPower ->
  (GasPowerLeft parent = GasPowerLeft (header e) + 1 ->
   (GasPowerLeft (header e) <= NoTxsThreshold gasPower ->
    wrapInt64 (NoTxsThreshold gasPower) ≠ 0) ->
   isAllowedToEmit gasPower config elapsed e (Some parent) = Ok false)
  ∧ (GasPowerLeft parent = GasPowerLeft (header e) ->
     (NoTxsThreshold gasPower < GasPowerLeft (header e)
      ∨ (wrapInt64 (NoTxsThreshold gasPower) ≠ 0
         ∧ adjustedEmitInterval gasPower config e <= elapsed)) ->
     isAllowedToEmit gasPower config elapsed e (Some parent) = Ok true).
Proof.
  intros Hat. unfold isAllowedToEmit. rewrite <- Hat, Z.leb_refl. split.
  - intros Hp Hdiv.
    assert ((GasPowerLeft (header e) >=? GasPowerLeft parent) = false) as Hge.
    { rewrite Z.geb_leb. apply Z.leb_gt. lia. }
    destruct (Z.leb_spec (GasPowerLeft (header e)) (NoTxsThreshold gasPower)) as [Hle|Hgt].
    + apply Hdiv in Hle. apply Z.eqb_neq in Hle. rewrite Hle. simpl.
      destruct (elapsed <? adjustedEmitInterval gasPower config e); [done|].
      by rewrite Hge.
    + simpl. by rewrite Hge.
  - intros Hp Hpace.
    assert ((GasPowerLeft (header e) >=? GasPowerLeft parent) = true) as Hge.
    { rewrite Z.geb_leb. apply Z.leb_le. lia. }
    destruct (Z.leb_spec (GasPowerLeft (header e)) (NoTxsThreshold gasPower)) as [Hle|Hgt].
    + destruct Hpace as [Hlt | [Hnz Hint]]; [lia|].
      apply Z.eqb_neq in Hnz. rewrite Hnz. simpl.
      apply Z.ltb_ge in Hint. rewrite Hint. by rewrite Hge.
    + simpl. by rewrite Hge.
Qed.

End Claims.

(** C6 fails on the code.  With 1000 units of power left, a cap of 1000 and
    five pending transactions of 300 gas from one sender, [addTxs] charges
    three transactions (900 gas) and appends the sender's whole list each
    time: fifteen transactions instead of three.  With one transaction per
    sender the same budget gives the three transactions the claim states.
    A sender's transaction of 5000 gas, which does not fit, is included
    along with the one of 300 gas before it. *)
Theorem addTxs_appends_whole_group :
  addTxs 1000 1 noSize healthy 1 (Some oneSender) 0 budget
  = Ok (mkEvent (mkHeader 900 100)
          (concat oneSender ++ concat oneSender ++ concat oneSender))
  ∧ length (concat oneSender ++ concat oneSender ++ concat oneSender) = 15%nat
  ∧ addTxs 1000 1 noSize healthy 1 (Some fiveSenders) 0 budget
    = Ok (mkEvent (mkHeader 900 100) [tx300 1; tx300 2; tx300 3])
  ∧ addTxs 1000 1 noSize healthy 1 (Some mixed) 0 budget
    = Ok (mkEvent (mkHeader 300 700) [mkTx 1 300; mkTx 2 5000]).
Proof. repeat split; by vm_compute. Qed.

(** C7 fails on the code, by the defect of C6.  With 1000 units of power
    left, a cap of 1000, one sender with five pending transactions of 300
    gas, a size of 100 per transaction and a limit of 1000, packing charges
    three transactions (GasPowerUsed 900, GasPowerLeft 100) and leaves
    fifteen in the event.  The spill loop removes five of them from the
    tail and refunds 300 gas for each, 1500 in all, of which 600 were never
    charged: GasPowerUsed wraps around to 2^64 - 600 instead of decreasing
    by the removed gas, and GasPowerLeft ends at 1600, above the 1000 the
    event came with.  With one transaction per sender and a limit of 200,
    the loop removes the third transaction and refunds its 300 gas
    exactly, as the claim states. *)
Theorem addTxs_refunds_uncharged :
  pack (maxGasPowerToUse 1000 healthy 0 budget) budget oneSender
  = mkEvent (mkHeader 900 100)
      (concat oneSender ++ concat oneSender ++ concat oneSender)
  ∧ size100 (mkEvent (mkHeader 900 100)
               (concat oneSender ++ concat oneSender ++ concat oneSender)) = 1500
  ∧ addTxs 1000 1000 size100 healthy 20 (Some oneSender) 0 budget
    = Ok (mkEvent (mkHeader 18446744073709551016 1600)
            (concat oneSender ++ concat oneSender))
  ∧ 18446744073709551016 = 2 ^ 64 - 600
  ∧ addTxs 1000 200 size100 healthy 20 (Some fiveSenders) 0 budget
    = Ok (mkEvent (mkHeader 600 400) [tx300 1; tx300 2]).
Proof. repeat split; by vm_compute. Qed.

(** C8 does not hold when the values are equal: with NoTxsThreshold 100,
    EmergencyThreshold 10, intervals from 100 to 1000 and no time elapsed,
    the pacing step holds the event back. *)
Lemma isAllowedToEmit_equal_counterexample :
  GasPowerLeft (header atEmergency) = EmergencyThreshold pacing
  ∧ GasPowerLeft (mkHeader 0 10) = GasPowerLeft (header atEmergency)
  ∧ isAllowedToEmit pacing intervals 0 atEmergency (Some (mkHeader 0 10)) = Ok false.
Proof. repeat split; by vm_compute. Qed.

Lemma isAllowedToEmit_at_emergency_witness :
  GasPowerLeft (header atEmergency) = EmergencyThreshold pacing
  ∧ isAllowedToEmit pacing intervals 910 atEmergency (Some (mkHeader 0 11)) = Ok false
  ∧ isAllowedToEmit pacing intervals 910 atEmergency (Some (mkHeader 0 10)) = Ok true.
Proof.
  split; [reflexivity|]. split.
  - apply (isAllowedToEmit_at_emergency pacing intervals 910 atEmergency (mkHeader 0 11));
      [reflexivity | reflexivity | intros _; by vm_compute].
  - apply (isAllowedToEmit_at_emergency pacing intervals 910 atEmergency (mkHeader 0 10));
      [reflexivity | reflexivity |].
    right. split; [by vm_compute | vm_compute; discriminate].
Defined.

End EmitterProofs.

(** * More about the ancestry index *)

Module SeeingExtra.
Import Seeing SeeingSpec SeeingInvariants SeeingProofs Scenario.

(** ** Outcomes of Add *)

Lemma foldM_fillParent_zero (fuel : nat) (ps : list EventHash) st :
  (∀ p, p ∈ ps -> IsZero p = true) -> foldM (fillParent fuel) st ps = Ok st.
Proof.
  induction ps as [|p ps IH]; intros Hz; [done|].
  assert (fillParent fuel st p = Ok st) as Hp.
  { destruct st as [evs e]. unfold fillParent. by rewrite (Hz p) by (by left). }
  simpl. rewrite Hp. simpl. apply IH. intros q Hq. apply Hz. by right.
Qed.

(** X1. An event that [Add] has indexed cannot be added again: the second
    [Add] reports the fatal error, whatever the round bound. *)
Theorem Add_twice (fuel fuel' : nat) ss (e : InterEvent) ss' :
  Add fuel ss e = Ok ss' -> Add fuel' ss' e = Panic Fatal.
Proof.
  intros Hadd. destruct (events ss !! Hash e) as [r0|] eqn:Hfresh.
  { rewrite Add_indexed in Hadd by eauto. discriminate. }
  rewrite (Add_fresh _ _ _ Hfresh) in Hadd. case_decide; [|discriminate].
  ok_inv Hadd. simplify_eq. apply Add_indexed. simpl.
  rewrite lookup_insert_eq. eauto.
Qed.

Lemma Add_twice_witness :
  Add 4 (New solo) a1 = Ok solo1 ∧ Add 0 solo1 a1 = Panic Fatal.
Proof.
  split; [by vm_compute|]. apply (Add_twice 4 0 (New solo) a1 solo1). by vm_compute.
Defined.

(** X2. An event whose parent hashes are all zero (or that has none) is
    indexed without touching any other record: the new record carries the
    event's sequence number in its creator's slot of both arrays and zero
    elsewhere, and the creator gets its slot.  This holds in every state and
    needs no round of the walk. *)
Theorem Add_without_parents (fuel : nat) ss (e : InterEvent) :
  events ss !! Hash e = None ->
  (creatorSlot ss e < size (members ss))%nat ->
  (∀ p, p ∈ Parents e -> IsZero p = true) ->
  Add fuel ss e
  = Ok (mkStrongly (members ss)
          (<[Creator e := creatorSlot ss e]> (nodes ss))
          (<[Hash e := seeded ss e]> (events ss))).
Proof.
  intros Hfresh Hfits Hz. rewrite (Add_fresh _ _ _ Hfresh), decide_True by done.
  by rewrite foldM_fillParent_zero.
Qed.

Lemma Add_without_parents_witness :
  events solo1 !! Hash (mkInterEvent 13 alice 3 [0%N]) = None
  ∧ (creatorSlot solo1 (mkInterEvent 13 alice 3 [0%N]) < size (members solo1))%nat
  ∧ Add 0 solo1 (mkInterEvent 13 alice 3 [0%N])
    = Ok (mkStrongly (members solo1) (nodes solo1)
            (<[13%N := mkEvent (mkInterEvent 13 alice 3 [0%N]) 0 [3] [3]]> (events solo1))).
Proof.
  split; [by vm_compute|]. split; [vm_compute; lia|].
  rewrite (Add_without_parents 0 solo1 (mkInterEvent 13 alice 3 [0%N]));
    [by vm_compute | by vm_compute | vm_compute; lia |].
  intros p ->%list_elem_of_singleton. reflexivity.
Defined.

(** X3. An event with a nonzero parent hash that is not indexed makes [Add]
    fail with a nil dereference (once the hash is known to be new and the
    creator's slot to fit): parents must be added before their children. *)
Theorem Add_parent_not_indexed (fuel : nat) ss (e : InterEvent) (p : EventHash) :
  reachable ss ->
  (size (events ss) < fuel)%nat ->
  events ss !! Hash e = None ->
  (creatorSlot ss e < size (members ss))%nat ->
  p ∈ Parents e -> IsZero p = false -> events ss !! p = None ->
  Add fuel ss e = Panic NilDeref.
Proof.
  intros Hwf%reachable_wf Hfuel Hfresh Hfits Hp Hnz Hnone.
  apply Add_missing_parent; eauto.
Qed.

Lemma Add_parent_not_indexed_witness :
  reachable solo1
  ∧ events solo1 !! 99%N = None
  ∧ Add 4 solo1 (mkInterEvent 12 alice 2 [11%N; 99%N]) = Panic NilDeref.
Proof.
  split; [apply reachable_solo1|]. split; [by vm_compute|].
  apply (Add_parent_not_indexed 4 solo1 (mkInterEvent 12 alice 2 [11%N; 99%N]) 99);
    [apply reachable_solo1 | vm_compute; lia | by vm_compute | vm_compute; lia
    | | by vm_compute | by vm_compute].
  simpl. apply elem_of_cons. right. by apply list_elem_of_singleton.
Defined.

(** ** Invariants of reachable states *)

Lemma added_dense ss e ss' r : denseSlots ss -> added ss e ss' r -> denseSlots ss'.
Proof.
  intros [Hlt Hinj Hbound] Ha.
  destruct Ha as [_ Hmm Hc Hnodes Hfits _ _ _ _ _ _].
  unfold creatorSlot in Hc.
  destruct (nodes ss !! Creator e) as [n|] eqn:Hn; simpl in Hc.
  - assert (nodes ss' = nodes ss) as Heq by (by rewrite Hnodes, Hc, insert_id).
    split; rewrite ?Heq, ?Hmm; done.
  - pose proof (map_size_insert_None (Creator e) (CreatorN r) (nodes ss) Hn) as Hsize.
    split; rewrite ?Hnodes, ?Hmm, ?Hsize.
    + intros c k. destruct (decide (c = Creator e)) as [->|Hne].
      * rewrite lookup_insert_eq. intros [= <-]. lia.
      * rewrite lookup_insert_ne by done. intros Hk%Hlt. lia.
    + intros c c' k. destruct (decide (c = Creator e)) as [->|Hne];
        destruct (decide (c' = Creator e)) as [->|Hne']; [done|..].
      * rewrite lookup_insert_eq, lookup_insert_ne by done.
        intros [= <-] Hk%Hlt. lia.
      * rewrite lookup_insert_eq, lookup_insert_ne by done.
        intros Hk%Hlt [= <-]. lia.
      * rewrite !lookup_insert_ne by done. apply Hinj.
    + lia.
Qed.

(** X4. The creator-slot table of an index is always dense, one-to-one and
    no larger than the validator set: slots are the numbers below the
    number of creators seen, and two creators never share one. *)
Theorem slots_dense ss : reachable ss -> denseSlots ss.
Proof.
  induction 1 as [ss mm | fuel ss e ss' Hreach IH Hadd].
  - split; simpl.
    + intros c n Hc. by rewrite lookup_empty in Hc.
    + intros c c' n Hc. by rewrite lookup_empty in Hc.
    + rewrite map_size_empty. lia.
  - destruct (Add_added _ _ _ _ (reachable_wf _ Hreach) Hadd) as [r Hr].
    by eapply added_dense.
Qed.

Lemma slots_dense_witness :
  reachable four2 ∧ nodes four2 !! alice = Some O ∧ nodes four2 !! bob = Some 1%nat
  ∧ size (nodes four2) = 2%nat.
Proof.
  split; [apply reachable_four2|]. split; [by vm_compute|]. split; [by vm_compute|].
  pose proof (slots_dense four2 reachable_four2) as [Hlt _ _].
  assert (nodes four2 !! bob = Some 1%nat) as Hbob by (by vm_compute).
  apply Hlt in Hbob. assert (size (nodes four2) ≤ 2)%nat by (by vm_compute). lia.
Defined.

Lemma added_keyed ss e ss' r : keyed (events ss) -> added ss e ss' r -> keyed (events ss').
Proof.
  intros Hk Ha. destruct Ha as [_ _ _ _ _ (evs & Hevs & Hrel) Hi _ _ _ _].
  intros h x. rewrite Hevs. destruct (decide (h = Hash e)) as [->|Hne].
  - rewrite lookup_insert_eq. intros [= <-]. by rewrite Hi.
  - rewrite lookup_insert_ne by done. intros Hx.
    destruct (storeRel_Some_inv _ _ _ _ _ _ Hrel Hx) as (x0 & Hx0 & Ht).
    rewrite (touched_inter _ _ _ _ Ht). by apply Hk.
Qed.

Lemma reachable_keyed ss : reachable ss -> keyed (events ss).
Proof.
  induction 1 as [ss mm | fuel ss e ss' Hreach IH Hadd].
  - intros h r Hr. simpl in Hr. by rewrite lookup_empty in Hr.
  - destruct (Add_added _ _ _ _ (reachable_wf _ Hreach) Hadd) as [r Hr].
    by eapply added_keyed.
Qed.

(** X5. Every record of an index is stored under its event's hash, has
    both arrays of the validator set's size, holds the slot the table gives
    its creator, which is within the arrays, and has all its nonzero
    parents indexed, none of them being the event itself. *)
Theorem records_well_formed ss (h : EventHash) (r : Event) :
  reachable ss ->
  events ss !! h = Some r ->
  Hash (interEvent r) = h
  ∧ length (LowestSees r) = size (members ss)
  ∧ length (HighestSeen r) = size (members ss)
  ∧ nodes ss !! Creator (interEvent r) = Some (CreatorN r)
  ∧ (CreatorN r < size (members ss))%nat
  ∧ ∀ p, p ∈ Parents (interEvent r) -> IsZero p = false ->
      is_Some (events ss !! p) ∧ p ≠ h.
Proof.
  intros Hreach Hr. pose proof (reachable_wf _ Hreach) as Hwf.
  destruct Hwf as [Hsz [rank Hrk] Hslot Hcre _].
  split; [by apply (reachable_keyed ss Hreach)|].
  destruct (Hsz h r Hr) as [Hl Hh]. do 2 (split; [done|]).
  pose proof (Hcre h r Hr) as Hc. split; [done|]. split; [by apply (Hslot _ _ Hc)|].
  intros p Hp Hnz. destruct (Hrk h r Hr) as [_ Hpar].
  destruct (Hpar p Hp Hnz) as [Hsome Hlt]. split; [done|]. intros ->. lia.
Qed.

Lemma records_well_formed_witness :
  reachable solo2
  ∧ events solo2 !! 12%N = Some (mkEvent a2 0 [2] [2])
  ∧ is_Some (events solo2 !! 11%N).
Proof.
  split; [apply reachable_solo2|]. split; [by vm_compute|].
  destruct (records_well_formed solo2 12 (mkEvent a2 0 [2] [2]))
    as (_ & _ & _ & _ & _ & Hps); [apply reachable_solo2 | by vm_compute |].
  apply (Hps 11%N); [by apply list_elem_of_singleton | reflexivity].
Defined.

(** X6. A returned [Add] keeps the validator set, adds exactly the event's
    hash to the indexed hashes, gives the table at most the event's creator
    as a new key, and keeps the event data and slot of every record that was
    there; looking the event up afterwards gives a record of that event. *)
Theorem Add_frame (fuel : nat) ss (e : InterEvent) ss' :
  reachable ss ->
  Add fuel ss e = Ok ss' ->
  members ss' = members ss
  ∧ (Hash e ∉ dom (events ss))
  ∧ dom (events ss') = {[Hash e]} ∪ dom (events ss)
  ∧ dom (nodes ss') = {[Creator e]} ∪ dom (nodes ss)
  ∧ (∀ c n, nodes ss !! c = Some n -> nodes ss' !! c = Some n)
  ∧ (∃ r, events ss' !! Hash e = Some r ∧ interEvent r = e)
  ∧ ∀ h r0, events ss !! h = Some r0 ->
      ∃ r1, events ss' !! h = Some r1
        ∧ interEvent r1 = interEvent r0 ∧ CreatorN r1 = CreatorN r0.
Proof.
  intros Hwf%reachable_wf Hadd.
  destruct (Add_added _ _ _ _ Hwf Hadd) as [r Hr].
  destruct Hr as [Hfresh Hmm Hc Hnodes _ (evs & Hevs & Hrel) Hi _ _ _ _].
  split; [done|]. split; [by apply not_elem_of_dom|].
  split; [by rewrite Hevs, dom_insert_L, (storeRel_dom _ _ _ _ Hrel)|].
  split; [by rewrite Hnodes, dom_insert_L|].
  split.
  { intros c n Hn. rewrite Hnodes. destruct (decide (c = Creator e)) as [->|Hne].
    - rewrite lookup_insert_eq, Hc. unfold creatorSlot. by rewrite Hn.
    - by rewrite lookup_insert_ne. }
  split; [exists r; by rewrite Hevs, lookup_insert_eq|].
  intros h r0 Hr0. destruct (storeRel_Some _ _ _ _ _ _ Hrel Hr0) as (r1 & Hr1 & Ht).
  exists r1. rewrite Hevs, lookup_insert_ne by (intros <-; congruence).
  split; [done|]. split; apply Ht.
Qed.

Lemma Add_frame_witness :
  reachable solo1 ∧ Add 4 solo1 a2 = Ok solo2
  ∧ dom (events solo2) = {[Hash a2]} ∪ dom (events solo1).
Proof.
  split; [apply reachable_solo1|]. split; [by vm_compute|].
  apply (Add_frame 4 solo1 a2 solo2); [apply reachable_solo1 | by vm_compute].
Defined.

(** ** The HighestSeen merge *)

Lemma highestFrom_lookup (ps : list Z) :
  ∀ (i : nat) (hs : list Z), (i + length ps ≤ length hs)%nat ->
  ∃ hs', highestFrom i ps hs = Ok hs'
    ∧ length hs' = length hs
    ∧ ∀ j x, hs !! j = Some x ->
        hs' !! j = Some (if decide (i ≤ j)%nat
                         then match ps !! (j - i)%nat with
                              | Some n => Z.max x n
                              | None => x
                              end
                         else x).
Proof.
  induction ps as [|n ps IH]; intros i hs Hlen; simpl in Hlen.
  - exists hs. split; [done|]. split; [done|]. intros j x Hj.
    rewrite lookup_nil. by case_decide.
  - destruct (index_lt hs i) as (cur & Hcur & Hidx); [lia|].
    simpl. rewrite Hidx. simpl.
    set (hs1 := if cur <? n then <[i := n]> hs else hs).
    assert ((if cur <? n then assign hs i n else Ok hs) = Ok hs1) as ->.
    { unfold hs1. destruct (cur <? n); [apply assign_lt; lia | done]. }
    assert (length hs1 = length hs) as Hl1.
    { unfold hs1. destruct (cur <? n); [apply length_insert | done]. }
    assert (∀ j x, hs !! j = Some x ->
              hs1 !! j = Some (if decide (i = j) then Z.max x n else x)) as H1.
    { intros j x Hj. unfold hs1. destruct (Z.ltb_spec cur n) as [Hlt|Hge].
      - destruct (decide (i = j)) as [->|Hne].
        + rewrite list_lookup_insert_eq by (by eapply lookup_lt_Some).
          simplify_eq. f_equal. lia.
        + by rewrite list_lookup_insert_ne.
      - destruct (decide (i = j)) as [->|Hne]; [|done].
        rewrite Hj in Hcur. injection Hcur as ->. rewrite Hj. f_equal. lia. }
    simpl. destruct (IH (S i) hs1) as (hs' & Hrun & Hl & Hlook); [lia|].
    exists hs'. split; [done|]. split; [lia|].
    intros j x Hj. rewrite (Hlook j _ (H1 j x Hj)).
    f_equal. destruct (decide (i = j)) as [->|Hne].
    + rewrite decide_False by lia. rewrite decide_True by lia.
      by rewrite Nat.sub_diag.
    + destruct (decide (S i ≤ j)%nat) as [Hle|Hgt].
      * rewrite decide_True by lia.
        replace (j - i)%nat with (S (j - S i)) by lia. done.
      * by rewrite decide_False by lia.
Qed.

Lemma highestFrom_overrun (ps : list Z) :
  ∀ (i : nat) (hs : list Z), (i ≤ length hs)%nat -> (length hs < i + length ps)%nat ->
  highestFrom i ps hs = Panic IndexOutOfRange.
Proof.
  induction ps as [|n ps IH]; intros i hs Hi Hlen; simpl in *; [lia|].
  destruct (decide (i < length hs)%nat) as [Hlt|Hge].
  - destruct (index_lt hs i Hlt) as (cur & _ & ->). simpl.
    destruct (cur <? n).
    + rewrite assign_lt by done. simpl. apply IH; rewrite length_insert; lia.
    + simpl. apply IH; lia.
  - by rewrite index_ge by lia.
Qed.

(** X7. [updateAllHighestSeen] takes the larger of the two entries at every
    position of the parent's array and leaves the rest of the record as it
    is; when the parent's array is the longer one it indexes out of range. *)
Theorem updateAllHighestSeen_max (e parent : Event) :
  ((length (HighestSeen parent) ≤ length (HighestSeen e))%nat ->
   ∃ e', updateAllHighestSeen e parent = Ok e'
     ∧ interEvent e' = interEvent e ∧ CreatorN e' = CreatorN e
     ∧ LowestSees e' = LowestSees e
     ∧ length (HighestSeen e') = length (HighestSeen e)
     ∧ ∀ j x, HighestSeen e !! j = Some x ->
         HighestSeen e' !! j
         = Some (match HighestSeen parent !! j with
                 | Some n => Z.max x n
                 | None => x
                 end))
  ∧ ((length (HighestSeen e) < length (HighestSeen parent))%nat ->
     updateAllHighestSeen e parent = Panic IndexOutOfRange).
Proof.
  unfold updateAllHighestSeen. split; intros Hlen.
  - destruct (highestFrom_lookup (HighestSeen parent) 0 (HighestSeen e))
      as (hs' & -> & Hl & Hlook); [lia|].
    simpl. eexists. split; [done|]. simpl. repeat (split; [done|]).
    intros j x Hj. rewrite (Hlook j x Hj). rewrite decide_True by lia.
    by rewrite Nat.sub_0_r.
  - rewrite highestFrom_overrun; [done | lia | lia].
Qed.

Lemma updateAllHighestSeen_max_witness :
  (length [0; 7; 2] ≤ length [5; 1; 2])%nat
  ∧ ∃ e', updateAllHighestSeen (mkEvent a1 0 [1; 0; 0] [5; 1; 2])
                               (mkEvent b1 1 [0; 1; 0] [0; 7; 2]) = Ok e'
      ∧ HighestSeen e' !! 1%nat = Some 7.
Proof.
  split; [simpl; lia|].
  destruct (updateAllHighestSeen_max (mkEvent a1 0 [1; 0; 0] [5; 1; 2])
              (mkEvent b1 1 [0; 1; 0] [0; 7; 2])) as [Hok _].
  destruct Hok as (e' & Hrun & _ & _ & _ & _ & Hlook); [simpl; lia|].
  exists e'. split; [exact Hrun|]. exact (Hlook 1%nat 1 eq_refl).
Defined.

Lemma below_refl (xs : list Z) : below xs xs.
Proof. intros j x Hj. exists x. split; [done|lia]. Qed.

Lemma below_trans (xs ys zs : list Z) : below xs ys -> below ys zs -> below xs zs.
Proof.
  intros H1 H2 j x Hj. destruct (H1 j x Hj) as (y & Hy & Hxy).
  destruct (H2 j y Hy) as (z & Hz & Hyz). exists z. split; [done|lia].
Qed.

Lemma highestFrom_dominates (ps : list Z) :
  ∀ (i : nat) (hs hs' : list Z), highestFrom i ps hs = Ok hs' ->
  ∀ k n, ps !! k = Some n -> ∃ y, hs' !! (i + k)%nat = Some y ∧ n <= y.
Proof.
  induction ps as [|n0 ps IH]; intros i hs hs' Hrun k n Hk; [by rewrite lookup_nil in Hk|].
  simpl in Hrun. ok_inv Hrun. ok_inv Hrun. apply index_Ok in Hok.
  destruct k as [|k]; simpl in Hk.
  - simplify_eq. rewrite Nat.add_0_r.
    assert (∃ y, a0 !! i = Some y ∧ n <= y) as (y & Hy & Hny).
    { destruct (Z.ltb_spec a n) as [Hlt|Hge].
      - apply assign_Ok in Hok0 as [Hi ->]. exists n.
        split; [by apply list_lookup_insert_eq | lia].
      - simplify_eq. exists a. split; [done|lia]. }
    destruct (highestFrom_mono _ _ _ _ Hrun i y Hy) as (z & Hz & Hyz).
    exists z. split; [done|lia].
  - rewrite Nat.add_succ_r. apply (IH (S i) _ _ Hrun k n Hk).
Qed.

Lemma highestFrom_from (ps : list Z) :
  ∀ (i : nat) (hs hs' : list Z), highestFrom i ps hs = Ok hs' ->
  ∀ j v, hs' !! j = Some v ->
    hs !! j = Some v ∨ ∃ k, j = (i + k)%nat ∧ ps !! k = Some v.
Proof.
  induction ps as [|n ps IH]; intros i hs hs' Hrun j v Hj; simpl in Hrun.
  - simplify_eq. by left.
  - ok_inv Hrun. ok_inv Hrun. apply index_Ok in Hok.
    destruct (IH _ _ _ Hrun j v Hj) as [H1 | (k & -> & Hk)].
    + destruct (Z.ltb_spec a n) as [Hlt|Hge]; [|simplify_eq; by left].
      apply assign_Ok in Hok0 as [Hi ->].
      destruct (decide (i = j)) as [->|Hne].
      * rewrite list_lookup_insert_eq in H1 by done. simplify_eq.
        right. exists O. by rewrite Nat.add_0_r.
      * rewrite list_lookup_insert_ne in H1 by done. by left.
    + right. exists (S k). split; [lia | done].
Qed.

Lemma updateAllHighestSeen_inv (e parent e' : Event) :
  updateAllHighestSeen e parent = Ok e' ->
  below (HighestSeen e) (HighestSeen e')
  ∧ below (HighestSeen parent) (HighestSeen e')
  ∧ ∀ j v, HighestSeen e' !! j = Some v ->
      HighestSeen e !! j = Some v ∨ HighestSeen parent !! j = Some v.
Proof.
  unfold updateAllHighestSeen. intros Hup. ok_inv Hup. simplify_eq. simpl.
  split; [intros j x; by apply (highestFrom_mono _ _ _ _ Hok)|].
  split.
  - intros j x Hj. by apply (highestFrom_dominates _ _ _ _ Hok j x).
  - intros j v Hj. destruct (highestFrom_from _ _ _ _ Hok j v Hj) as [?|(k & -> & ?)]; auto.
Qed.

(** ** What one Add does, step by step *)

Lemma Add_run (fuel : nat) ss (e : InterEvent) ss' :
  Add fuel ss e = Ok ss' ->
  ∃ evs r,
    events ss !! Hash e = None
    ∧ (creatorSlot ss e < size (members ss))%nat
    ∧ foldM (fillParent fuel) (events ss, seeded ss e) (Parents e) = Ok (evs, r)
    ∧ ss' = mkStrongly (members ss) (<[Creator e := creatorSlot ss e]> (nodes ss))
                       (<[Hash e := r]> evs).
Proof.
  intros Hadd. destruct (events ss !! Hash e) as [r0|] eqn:Hfresh.
  { rewrite Add_indexed in Hadd by eauto. discriminate. }
  rewrite (Add_fresh _ _ _ Hfresh) in Hadd. case_decide; [|discriminate].
  ok_inv Hadd. simplify_eq. destruct a as [evs r]. by exists evs, r.
Qed.

Lemma setLowestSeesIfMin_reached (r : Event) (node : nat) (ref : Z) upd :
  setLowestSeesIfMin r node ref = Ok upd -> reached node ref upd.1.
Proof.
  unfold setLowestSeesIfMin. intros Hset. ok_inv Hset. apply index_Ok in Hok.
  destruct (accepts r node ref a) eqn:Hacc.
  - ok_inv Hset. simplify_eq. apply assign_Ok in Hok0 as [Hlt ->]. simpl.
    exists ref. split; [by apply list_lookup_insert_eq|]. split; [lia | done].
  - simplify_eq. simpl. exists a. split; [done|]. unfold accepts in Hacc.
    apply orb_false_iff in Hacc as [[H0 Hlt]%orb_false_iff _].
    apply Z.eqb_neq in H0. apply Z.ltb_ge in Hlt. split; [lia | done].
Qed.

Lemma reached_touched (node : nat) (ref : Z) (r1 r2 : Event) :
  reached node ref r1 -> touched node ref r1 r2 -> reached node ref r2.
Proof.
  intros (v & Hv & Hle & Hnz) Ht. unfold reached.
  destruct (touched_lowest _ _ _ _ Ht) as [->|[-> _]]; [by exists v|].
  exists ref. split; [|split; [lia | done]].
  apply list_lookup_insert_eq. by eapply lookup_lt_Some.
Qed.

Lemma lowestLoop_reached (fuel : nat) evs (p : EventHash) (node : nat) (ref : Z) evs' :
  lowestLoop fuel evs [p] node ref = Ok evs' ->
  ∃ r', evs' !! p = Some r' ∧ reached node ref r'.
Proof.
  destruct fuel as [|fuel]; [discriminate|]. simpl. intros Hrun.
  apply bind_Ok_inv in Hrun as (pass & Hpass & Hrun).
  apply bind_Ok_inv in Hpass as (r & Hr & Hpass).
  apply bind_Ok_inv in Hpass as (upd & Hupd & Hpass).
  simpl in Hpass. simplify_eq. simpl in Hrun.
  pose proof (setLowestSeesIfMin_reached _ _ _ _ Hupd) as Hreached.
  assert ((<[p := upd.1]> evs) !! p = Some upd.1) as Hp by apply lookup_insert_eq.
  rewrite app_nil_r in Hrun.
  destruct (if upd.2 then _ else _) as [|q next] eqn:Hpushed.
  - simplify_eq. eauto.
  - pose proof (lowestLoop_rel node ref _ _ _ _ _ (storeRel_refl _ _ _) Hrun) as Hrel.
    destruct (storeRel_Some _ _ _ _ _ _ Hrel Hp) as (r' & Hr' & Ht).
    exists r'. split; [done|]. by eapply reached_touched.
Qed.

Section Steps.

Variable fuel : nat.

Lemma fillParent_facts st (p : EventHash) st' :
  sized (length (HighestSeen st.2)) st.1 ->
  (CreatorN st.2 < length (HighestSeen st.2))%nat ->
  fillParent fuel st p = Ok st' ->
  built st.1 st.2 st'
  ∧ (IsZero p = true -> st' = st)
  ∧ (IsZero p = false ->
     ∃ rp0 rp, st.1 !! p = Some rp0 ∧ st'.1 !! p = Some rp
       ∧ reached (CreatorN st.2) (Index (interEvent st.2)) rp
       ∧ below (HighestSeen rp0) (HighestSeen st'.2)
       ∧ ∀ j v, HighestSeen st'.2 !! j = Some v ->
           HighestSeen st.2 !! j = Some v ∨ HighestSeen rp0 !! j = Some v).
Proof.
  intros Hsz Hfit Hrun.
  destruct (fillParent_rel st.1 st.2 Hsz Hfit fuel st p st') as [Hb _];
    [destruct st; apply built_init | done |].
  split; [done|]. destruct st as [evs e]. unfold fillParent in Hrun. simpl in *.
  destruct (IsZero p) eqn:Hz.
  { split; [intros _; by simplify_eq | discriminate]. }
  split; [discriminate|]. intros _.
  apply bind_Ok_inv in Hrun as (evs1 & Hwalk & Hrun).
  apply bind_Ok_inv in Hrun as (parent & Hp & Hrun).
  apply bind_Ok_inv in Hrun as (e1 & Hup & Hrun). simplify_eq.
  destruct (evs1 !! p) as [parent'|] eqn:Hp'; [|discriminate]. simpl in Hp. simplify_eq.
  rename Hp' into Hp. unfold updateAllLowestSees in Hwalk.
  destruct (lowestLoop_reached _ _ _ _ _ _ Hwalk) as (r' & Hr' & Hreached).
  pose proof (lowestLoop_rel _ _ _ _ _ _ _ (storeRel_refl _ _ _) Hwalk) as Hrel.
  destruct (storeRel_Some_inv _ _ _ _ _ _ Hrel Hp) as (rp0 & Hrp0 & Ht).
  destruct (updateAllHighestSeen_inv _ _ _ Hup) as (_ & Hbelow & Hfrom).
  rewrite (touched_highest _ _ _ _ Ht) in Hbelow, Hfrom.
  exists rp0, parent. simpl. split; [done|]. split; [done|].
  split; [congruence|]. split; [done|]. done.
Qed.

Lemma foldM_fillParent_facts (ps : list EventHash) :
  ∀ st st',
  sized (length (HighestSeen st.2)) st.1 ->
  (CreatorN st.2 < length (HighestSeen st.2))%nat ->
  foldM (fillParent fuel) st ps = Ok st' ->
  built st.1 st.2 st'
  ∧ (∀ p, p ∈ ps -> IsZero p = false ->
       ∃ rp0 rp, st.1 !! p = Some rp0 ∧ st'.1 !! p = Some rp
         ∧ reached (CreatorN st.2) (Index (interEvent st.2)) rp
         ∧ below (HighestSeen rp0) (HighestSeen st'.2))
  ∧ (∀ j v, HighestSeen st'.2 !! j = Some v ->
       HighestSeen st.2 !! j = Some v
       ∨ ∃ p rp0, p ∈ ps ∧ IsZero p = false ∧ st.1 !! p = Some rp0
           ∧ HighestSeen rp0 !! j = Some v).
Proof.
  induction ps as [|p ps IH]; intros st st' Hsz Hfit Hrun; simpl in Hrun.
  - simplify_eq. split; [destruct st'; apply built_init|].
    split; [intros p Hp; by apply elem_of_nil in Hp | by left].
  - ok_inv Hrun. rename a into st1.
    destruct (fillParent_facts st p st1 Hsz Hfit Hok) as (Hb1 & Hzero & Hstep).
    destruct Hb1 as [Hrel1 Hi1 Hc1 Hl1 Hh1 Hm1].
    assert (sized (length (HighestSeen st1.2)) st1.1) as Hsz1.
    { rewrite Hh1. by eapply storeRel_sized. }
    assert (CreatorN st1.2 < length (HighestSeen st1.2))%nat as Hfit1.
    { by rewrite Hc1, Hh1. }
    destruct (IH st1 st' Hsz1 Hfit1 Hrun) as (Hb & Hpar & Hfrom).
    destruct Hb as [Hrel Hi Hc Hl Hh Hm].
    rewrite Hi1, Hc1 in Hrel, Hpar.
    split.
    { split; [|congruence..|].
      - intros h. specialize (Hrel1 h). specialize (Hrel h).
        destruct Hrel1 as [x y Hxy|]; inversion Hrel; subst; constructor.
        by eapply touched_step.
      - intros j x Hj. by apply (below_trans _ _ _ Hm1 Hm j x). }
    split.
    + intros q [->|Hq]%elem_of_cons Hnz.
      * destruct (Hstep Hnz) as (rp0 & rp1 & Hrp0 & Hrp1 & Hreached & Hbelow & _).
        destruct (storeRel_Some _ _ _ _ _ _ Hrel Hrp1) as (rp & Hrp & Ht).
        exists rp0, rp. split; [done|]. split; [done|].
        split; [by eapply reached_touched|]. by eapply below_trans.
      * destruct (Hpar q Hq Hnz) as (rp1 & rp & Hrp1 & Hrp & Hreached & Hbelow).
        destruct (storeRel_Some_inv _ _ _ _ _ _ Hrel1 Hrp1) as (rp0 & Hrp0 & Ht).
        exists rp0, rp. split; [done|]. split; [done|]. split; [done|].
        by rewrite <- (touched_highest _ _ _ _ Ht).
    + intros j v Hj. destruct (Hfrom j v Hj) as [H1 | (q & rq1 & Hq & Hnz & Hrq1 & Hv)].
      * destruct (IsZero p) eqn:Hz.
        -- rewrite (Hzero eq_refl) in H1. by left.
        -- destruct (Hstep eq_refl) as (rp0 & _ & Hrp0 & _ & _ & _ & Hfrom1).
           destruct (Hfrom1 j v H1) as [?|?]; [by left|].
           right. exists p, rp0. split; [by left | done].
      * destruct (storeRel_Some_inv _ _ _ _ _ _ Hrel1 Hrq1) as (rq0 & Hrq0 & Ht).
        right. exists q, rq0. split; [by right|]. split; [done|]. split; [done|].
        by rewrite <- (touched_highest _ _ _ _ Ht).
Qed.

End Steps.

(** Everything the proofs below need about a returned [Add]. *)
Lemma Add_facts (fuel : nat) ss (e : InterEvent) ss' :
  wf ss -> Add fuel ss e = Ok ss' ->
  ∃ evs r,
    events ss !! Hash e = None
    ∧ events ss' = <[Hash e := r]> evs
    ∧ built (events ss) (seeded ss e) (evs, r)
    ∧ (∀ p, p ∈ Parents e -> IsZero p = false ->
         ∃ rp0 rp, events ss !! p = Some rp0 ∧ evs !! p = Some rp
           ∧ reached (creatorSlot ss e) (Index e) rp
           ∧ below (HighestSeen rp0) (HighestSeen r))
    ∧ (∀ j v, HighestSeen r !! j = Some v ->
         HighestSeen (seeded ss e) !! j = Some v
         ∨ ∃ p rp0, p ∈ Parents e ∧ IsZero p = false ∧ events ss !! p = Some rp0
             ∧ HighestSeen rp0 !! j = Some v).
Proof.
  intros Hwf Hadd. destruct (Add_run _ _ _ _ Hadd) as (evs & r & Hfresh & Hfit & Hrun & ->).
  exists evs, r. split; [done|]. split; [done|].
  apply (foldM_fillParent_facts fuel (Parents e) (events ss, seeded ss e) (evs, r));
    [| |done]; simpl; rewrite length_insert, length_replicate; [apply Hwf | done].
Qed.

Lemma seeded_own ss (e : InterEvent) :
  (creatorSlot ss e < size (members ss))%nat ->
  HighestSeen (seeded ss e) !! creatorSlot ss e = Some (Index e).
Proof. intros Hfit. simpl. apply list_lookup_insert_eq. by rewrite length_replicate. Qed.

Lemma Add_dominant (fuel : nat) ss (e : InterEvent) ss' :
  wf ss -> dominant (events ss) -> Add fuel ss e = Ok ss' -> dominant (events ss').
Proof.
  intros Hwf Hdom Hadd.
  destruct (Add_facts _ _ _ _ Hwf Hadd) as (evs & r & Hfresh & Hevs & Hb & Hpar & _).
  destruct (Add_run _ _ _ _ Hadd) as (_ & _ & _ & Hfit & _).
  destruct Hb as [Hrel Hi Hc Hl Hh Hm]. simpl in *.
  destruct Hwf as [_ [rank Hrk] _ _ _].
  assert (∀ p x, evs !! p = Some x -> p ≠ Hash e) as Hne.
  { intros p x Hx ->. apply (storeRel_None _ _ _ _ _ Hrel) in Hfresh. congruence. }
  intros h x. rewrite Hevs. destruct (decide (h = Hash e)) as [->|Hhe].
  - rewrite lookup_insert_eq. intros [= <-]. split.
    + rewrite Hc. apply Hm. rewrite Hi. simpl. by apply seeded_own.
    + intros p rp Hp Hnz. rewrite Hi in Hp. simpl in Hp.
      destruct (Hpar p Hp Hnz) as (rp0 & rp' & Hrp0 & Hrp' & _ & Hbelow).
      rewrite lookup_insert_ne by (apply not_eq_sym; by eapply Hne).
      intros Hrp. simplify_eq.
      destruct (storeRel_Some _ _ _ _ _ _ Hrel Hrp0) as (rp1 & Hrp1 & Ht). simplify_eq.
      by rewrite (touched_highest _ _ _ _ Ht).
  - rewrite lookup_insert_ne by done. intros Hx.
    destruct (storeRel_Some_inv _ _ _ _ _ _ Hrel Hx) as (x0 & Hx0 & Ht).
    destruct Ht as [Hti Htc Hth _]. destruct (Hdom h x0 Hx0) as [Hown Hps].
    rewrite Hti, Htc, Hth. split; [done|].
    intros p rp Hp Hnz. destruct (Hrk h x0 Hx0) as [_ Hpar0].
    destruct (Hpar0 p Hp Hnz) as [[rp0 Hrp0] _].
    rewrite lookup_insert_ne by (intros <-; congruence). intros Hrp.
    destruct (storeRel_Some _ _ _ _ _ _ Hrel Hrp0) as (rp1 & Hrp1 & Ht). simplify_eq.
    rewrite (touched_highest _ _ _ _ Ht). by eapply Hps.
Qed.

Lemma reachable_dominant ss : reachable ss -> dominant (events ss).
Proof.
  induction 1 as [ss mm | fuel ss e ss' Hreach IH Hadd].
  - intros k x Hx. simpl in Hx. by rewrite lookup_empty in Hx.
  - by apply (Add_dominant fuel ss e ss' (reachable_wf _ Hreach)).
Qed.

(** X8. In every index, the HighestSeen array of a record is at least its
    own sequence number at its creator's slot, and at least the HighestSeen
    array of each of its parents at every slot: a child has seen what its
    parents have seen. *)
Theorem HighestSeen_dominates_parents ss (h p : EventHash) (r rp : Event) :
  reachable ss ->
  events ss !! h = Some r ->
  (∃ v, HighestSeen r !! CreatorN r = Some v ∧ Index (interEvent r) <= v)
  ∧ (p ∈ Parents (interEvent r) -> IsZero p = false -> events ss !! p = Some rp ->
     ∀ j x, HighestSeen rp !! j = Some x ->
       ∃ y, HighestSeen r !! j = Some y ∧ x <= y).
Proof.
  intros Hreach Hr.
  destruct (reachable_dominant ss Hreach h r Hr) as [Hown Hps]. split; [done|].
  intros Hp Hnz Hrp. by apply (Hps p rp).
Qed.

Lemma HighestSeen_dominates_parents_witness :
  reachable solo2
  ∧ events solo2 !! 12%N = Some (mkEvent a2 0 [2] [2])
  ∧ events solo2 !! 11%N = Some (mkEvent a1 0 [2] [1])
  ∧ ∃ y, [2] !! O = Some y ∧ 1 <= y.
Proof.
  split; [apply reachable_solo2|]. split; [by vm_compute|]. split; [by vm_compute|].
  destruct (HighestSeen_dominates_parents solo2 12 11 (mkEvent a2 0 [2] [2])
              (mkEvent a1 0 [2] [1])) as [_ Hps];
    [apply reachable_solo2 | by vm_compute |].
  apply (Hps ltac:(by apply list_elem_of_singleton) eq_refl ltac:(by vm_compute) O 1 eq_refl).
Defined.

(** X9. A returned [Add] of [e] leaves at each nonzero parent of [e], in
    the slot of [e]'s creator, a LowestSees entry that is at most [e]'s
    sequence number, and nonzero when that number is; the new record has at
    least that number in the same slot of HighestSeen.  So the slot of
    [e]'s creator passes the coherence test between [e] and each parent. *)
Theorem Add_informs_parents (fuel : nat) ss (e : InterEvent) ss' (p : EventHash) :
  reachable ss ->
  Add fuel ss e = Ok ss' ->
  p ∈ Parents e -> IsZero p = false ->
  ∃ r rp v y,
    events ss' !! Hash e = Some r ∧ interEvent r = e
    ∧ events ss' !! p = Some rp
    ∧ LowestSees rp !! CreatorN r = Some v
    ∧ HighestSeen r !! CreatorN r = Some y
    ∧ v <= Index e <= y
    ∧ (Index e ≠ 0 -> v ≠ 0 ∧ coherentSlot r rp (CreatorN r) = true).
Proof.
  intros Hwf%reachable_wf Hadd Hp Hnz.
  destruct (Add_facts _ _ _ _ Hwf Hadd) as (evs & r & Hfresh & Hevs & Hb & Hpar & _).
  destruct (Add_run _ _ _ _ Hadd) as (_ & _ & _ & Hfit & _).
  destruct Hb as [Hrel Hi Hc Hl Hh Hm]. simpl in *.
  destruct (Hpar p Hp Hnz) as (rp0 & rp & Hrp0 & Hrp & (v & Hv & Hle & Hvnz) & _).
  destruct (Hm _ _ (seeded_own ss e Hfit)) as (y & Hy & Hey).
  exists r, rp, v, y. rewrite Hevs, lookup_insert_eq.
  rewrite lookup_insert_ne by (intros <-; congruence). rewrite Hc.
  do 5 (split; [done|]). split; [lia|].
  intros Hidx. split; [auto|]. unfold coherentSlot. rewrite Hv, Hy.
  apply andb_true_intro. split.
  - apply negb_true_iff, Z.eqb_neq. auto.
  - apply Z.leb_le. lia.
Qed.

Lemma Add_informs_parents_witness :
  reachable solo1 ∧ Add 4 solo1 a2 = Ok solo2
  ∧ ∃ r rp, events solo2 !! Hash a2 = Some r ∧ events solo2 !! 11%N = Some rp
      ∧ coherentSlot r rp (CreatorN r) = true.
Proof.
  split; [apply reachable_solo1|]. split; [by vm_compute|].
  destruct (Add_informs_parents 4 solo1 a2 solo2 11)
    as (r & rp & v & y & Hr & _ & Hrp & _ & _ & _ & Hcoh);
    [apply reachable_solo1 | by vm_compute | by apply list_elem_of_singleton
    | reflexivity |].
  exists r, rp. split; [exact Hr|]. split; [exact Hrp|].
  apply Hcoh. by vm_compute.
Defined.

(** X10. After [setLowestSeesIfMin] has taken a nonzero sequence number at
    a record, offering the same number again is declined and changes
    nothing, unless the slot is the record's own and the number does not
    exceed the record's own sequence number (then it is taken again). *)
Theorem setLowestSeesIfMin_again (e : Event) (node : nat) (ref : Z) (e' : Event) :
  setLowestSeesIfMin e node ref = Ok (e', true) ->
  ref ≠ 0 ->
  setLowestSeesIfMin e' node ref
  = Ok (e', bool_decide (node = CreatorN e ∧ ref <= Index (interEvent e))).
Proof.
  unfold setLowestSeesIfMin. intros Hset Hnz. ok_inv Hset. apply index_Ok in Hok.
  destruct (accepts e node ref a) eqn:Hacc; [|by simplify_eq].
  apply bind_Ok_inv in Hset as (l & Hl & Hset). apply assign_Ok in Hl as [Hlt ->].
  simplify_eq. simpl.
  assert (index (<[node := ref]> (LowestSees e)) node = Ok ref) as ->.
  { apply index_Ok. by apply list_lookup_insert_eq. }
  simpl. unfold accepts. simpl.
  assert ((ref =? 0) = false) as -> by (by apply Z.eqb_neq).
  rewrite Z.ltb_irrefl. simpl.
  destruct (Nat.eqb_spec node (CreatorN e)) as [Hn|Hn];
    destruct (Z.leb_spec ref (Index (interEvent e))) as [Hle|Hgt]; simpl.
  - rewrite bool_decide_eq_true_2 by done.
    rewrite assign_lt by (by rewrite length_insert). simpl.
    unfold setLowestSees. simpl. by rewrite list_insert_insert_eq.
  - rewrite bool_decide_eq_false_2 by lia. done.
  - rewrite bool_decide_eq_false_2 by tauto. done.
  - rewrite bool_decide_eq_false_2 by tauto. done.
Qed.

Lemma setLowestSeesIfMin_again_witness :
  setLowestSeesIfMin (mkEvent a1 0 [1; 0] [1; 0]) 1 5
  = Ok (mkEvent a1 0 [1; 5] [1; 0], true)
  ∧ 5 ≠ 0
  ∧ setLowestSeesIfMin (mkEvent a1 0 [1; 5] [1; 0]) 1 5
    = Ok (mkEvent a1 0 [1; 5] [1; 0], false).
Proof.
  split; [by vm_compute|]. split; [lia|].
  rewrite (setLowestSeesIfMin_again (mkEvent a1 0 [1; 0] [1; 0]) 1 5
             (mkEvent a1 0 [1; 5] [1; 0])); [by vm_compute | by vm_compute | lia].
Defined.

Lemma witnessed_kept (node : nat) (ref : Z) evs0 evs (k : EventHash) (r : Event)
    (n : nat) (v : Z) :
  storeRel node ref evs0 evs -> evs0 !! k = None ->
  witnessed evs0 n v -> witnessed (<[k := r]> evs) n v.
Proof.
  intros Hrel Hk (h & d & Hd & Hn & Hv).
  destruct (storeRel_Some _ _ _ _ _ _ Hrel Hd) as (d' & Hd' & Ht).
  exists h, d'. rewrite lookup_insert_ne by (intros <-; congruence).
  split; [done|]. by rewrite (touched_creator _ _ _ _ Ht), (touched_inter _ _ _ _ Ht).
Qed.

Lemma Add_grounded (fuel : nat) ss (e : InterEvent) ss' :
  wf ss -> grounded (events ss) -> Add fuel ss e = Ok ss' -> grounded (events ss').
Proof.
  intros Hwf Hgr Hadd.
  destruct (Add_facts _ _ _ _ Hwf Hadd) as (evs & r & Hfresh & Hevs & Hb & _ & Hfrom).
  destruct (Add_run _ _ _ _ Hadd) as (_ & _ & _ & Hfit & _).
  destruct Hb as [Hrel Hi Hc Hl Hh Hm]. simpl in *.
  assert (witnessed (events ss') (creatorSlot ss e) (Index e)) as Hnew.
  { exists (Hash e), r. rewrite Hevs, lookup_insert_eq, Hi. done. }
  assert (∀ n v, witnessed (events ss) n v -> witnessed (events ss') n v) as Hkept.
  { intros n v. rewrite Hevs. by apply witnessed_kept with (1 := Hrel). }
  assert (∀ n v, v ≠ 0 ->
            <[creatorSlot ss e := Index e]> (replicate (size (members ss)) 0) !! n = Some v ->
            n = creatorSlot ss e ∧ v = Index e) as Hseed.
  { intros n v Hv Hn. destruct (decide (creatorSlot ss e = n)) as [<-|Hne].
    - rewrite list_lookup_insert_eq in Hn by (by rewrite length_replicate). by simplify_eq.
    - rewrite list_lookup_insert_ne in Hn by done.
      apply lookup_replicate in Hn as [-> _]. done. }
  intros h x n v Hx Hv. rewrite Hevs in Hx.
  destruct (decide (h = Hash e)) as [->|Hhe].
  - rewrite lookup_insert_eq in Hx. simplify_eq. split.
    + rewrite Hl. intros [-> ->]%Hseed; done.
    + intros [Hs | (p & rp0 & _ & _ & Hrp0 & Hp)]%Hfrom.
      * apply Hseed in Hs as [-> ->]; done.
      * apply Hkept. by apply (Hgr p rp0 n v Hrp0 Hv).
  - rewrite lookup_insert_ne in Hx by done.
    destruct (storeRel_Some_inv _ _ _ _ _ _ Hrel Hx) as (x0 & Hx0 & Ht).
    destruct (Hgr h x0 n v Hx0 Hv) as [Hlow Hhigh]. split.
    + destruct (touched_lowest _ _ _ _ Ht) as [->|(-> & cur & Hcur & _)].
      { intros Hn. auto. }
      destruct (decide (creatorSlot ss e = n)) as [<-|Hne].
      * rewrite list_lookup_insert_eq by (by eapply lookup_lt_Some).
        by intros [= <-].
      * rewrite list_lookup_insert_ne by done. auto.
    + rewrite (touched_highest _ _ _ _ Ht). auto.
Qed.

Lemma reachable_grounded ss : reachable ss -> grounded (events ss).
Proof.
  induction 1 as [ss mm | fuel ss e ss' Hreach IH Hadd].
  - intros k x m w Hx. simpl in Hx. by rewrite lookup_empty in Hx.
  - by apply (Add_grounded fuel ss e ss' (reachable_wf _ Hreach)).
Qed.

(** X11. In every index, a nonzero entry of LowestSees or HighestSeen at
    slot [n] is the sequence number of an indexed event whose creator has
    slot [n]: the arrays never hold a number no indexed event carries. *)
Theorem entries_are_indexed_events ss (h : EventHash) (r : Event) (n : nat) (v : Z) :
  reachable ss ->
  events ss !! h = Some r ->
  v ≠ 0 ->
  LowestSees r !! n = Some v ∨ HighestSeen r !! n = Some v ->
  ∃ k d, events ss !! k = Some d ∧ CreatorN d = n ∧ Index (interEvent d) = v.
Proof.
  intros Hreach Hr Hv Hn.
  destruct (reachable_grounded ss Hreach h r n v Hr Hv) as [Hlow Hhigh].
  destruct Hn as [Hn|Hn]; [exact (Hlow Hn) | exact (Hhigh Hn)].
Qed.

Lemma entries_are_indexed_events_witness :
  reachable solo2
  ∧ events solo2 !! 11%N = Some (mkEvent a1 0 [2] [1])
  ∧ ∃ k d, events solo2 !! k = Some d ∧ CreatorN d = O ∧ Index (interEvent d) = 2.
Proof.
  split; [apply reachable_solo2|]. split; [by vm_compute|].
  apply (entries_are_indexed_events solo2 11 (mkEvent a1 0 [2] [1]) O 2);
    [apply reachable_solo2 | by vm_compute | lia | by left].
Defined.

(** ** Seeing is inherited *)

Lemma weightedCount_mono (P Q : Peer -> bool) (mm : gmap Peer Z) :
  (∀ m w, mm !! m = Some w -> 0 <= w) ->
  (∀ m w, mm !! m = Some w -> P m = true -> Q m = true) ->
  weightedCount P mm <= weightedCount Q mm.
Proof.
  intros Hpos Himp. unfold weightedCount.
  assert (∀ mw, mw ∈ map_to_list mm ->
            0 <= mw.2 ∧ (P mw.1 = true -> Q mw.1 = true)) as Hl.
  { intros [m w] Hmw. apply elem_of_map_to_list in Hmw. simpl. eauto. }
  induction (map_to_list mm) as [|mw l IH]; simpl; [lia|].
  destruct (Hl mw) as [Hw Hpq]; [by left|].
  assert (∀ x, x ∈ l -> 0 <= x.2 ∧ (P x.1 = true -> Q x.1 = true)) as Hl'.
  { intros x Hx. apply Hl. by right. }
  specialize (IH Hl'). destruct (P mw.1); [rewrite Hpq by done|destruct (Q mw.1)]; lia.
Qed.

Section Inherited.

Variable quorum : gmap Peer Z -> Z.

(** X12. With nonnegative weights, whatever a parent sees its child sees:
    if [See(p, whom)] is true for a parent [p] of an indexed event [h], then
    [See(h, whom)] is true in the same index. *)
Theorem See_inherited_by_child ss (h p whom : EventHash) (r : Event) :
  reachable ss ->
  (∀ m w, members ss !! m = Some w -> 0 <= w) ->
  events ss !! h = Some r ->
  p ∈ Parents (interEvent r) -> IsZero p = false ->
  See quorum ss p whom = Ok true ->
  See quorum ss h whom = Ok true.
Proof.
  intros Hreach Hpos Hr Hp Hnz Hsee.
  pose proof (reachable_wf _ Hreach) as Hwf.
  destruct (wf_ranked _ Hwf) as [rank Hrk].
  destruct (Hrk h r Hr) as [_ Hpar]. destruct (Hpar p Hp Hnz) as [[rp Hrp] _].
  destruct (events ss !! whom) as [e2|] eqn:H2.
  - rewrite (See_indexed quorum ss p whom rp e2) in Hsee by done.
    rewrite (See_indexed quorum ss h whom r e2) by done.
    injection Hsee as Hsee. f_equal. apply Z.leb_le in Hsee. apply Z.leb_le.
    etrans; [exact Hsee|]. apply weightedCount_mono; [done|].
    intros m w Hm. unfold coherentSlot.
    destruct (LowestSees e2 !! slot ss m) as [lo|]; [|done].
    destruct (HighestSeen rp !! slot ss m) as [hi|] eqn:Hhi; [|done].
    destruct (reachable_dominant ss Hreach h r Hr) as [_ Hdom].
    destruct (Hdom p rp Hp Hnz Hrp _ _ Hhi) as (y & -> & Hle).
    intros [Hlo Hlohi]%andb_true_iff. apply andb_true_intro. split; [done|].
    apply Z.leb_le. apply Z.leb_le in Hlohi. lia.
  - unfold See in Hsee. rewrite Hrp, H2 in Hsee.
    destruct (decide (members ss = ∅)) as [Hmm|Hmm].
    + unfold See. rewrite Hr, H2. unfold sufficientCoherence in *.
      by rewrite Hmm, map_to_list_empty in *.
    + rewrite sufficientCoherence_nil in Hsee; [discriminate|done|done| |by right].
      intros ? [=].
Qed.

End Inherited.

Lemma See_inherited_by_child_witness :
  ∃ ss, chain = Ok ss ∧ reachable ss
    ∧ See twoThirds ss (Hash c2) (Hash a1) = Ok true
    ∧ See twoThirds ss (Hash d2) (Hash a1) = Ok true.
Proof.
  assert (∀ es ss ss', reachable ss -> foldM (Add 8) ss es = Ok ss' -> reachable ss')
    as Hrun.
  { induction es as [|e es IH]; intros ss ss' Hss Hes; simpl in Hes; [by simplify_eq|].
    apply bind_Ok_inv in Hes as (ss1 & Hadd & Hes).
    eapply IH; [|exact Hes]. by eapply reach_Add. }
  destruct chain as [ss| |] eqn:Hchain; [|by vm_compute in Hchain..].
  pose proof (Hrun _ (New four) ss (reach_Reset _ four) Hchain) as Hreach.
  exists ss. split; [reflexivity|]. split; [exact Hreach|].
  assert (Ok ss = chain) as Hss by done. clear Hchain.
  vm_compute in Hss. injection Hss as Hss.
  assert (See twoThirds ss (Hash c2) (Hash a1) = Ok true) as Hc2.
  { rewrite Hss. by vm_compute. }
  split; [exact Hc2|].
  apply (See_inherited_by_child twoThirds ss (Hash d2) (Hash c2) (Hash a1)
           (mkEvent d2 3 [0; 0; 0; 2] [1; 2; 2; 2]));
    [exact Hreach | | rewrite Hss; by vm_compute | | reflexivity | exact Hc2].
  - apply (bool_decide_unpack (map_Forall (λ _ w, 0 <= w) (members ss))).
    rewrite Hss. by vm_compute.
  - simpl. apply elem_of_cons. right. by apply list_elem_of_singleton.
Defined.

End SeeingExtra.

(** * More about the emitter *)

Module EmitterExtra.
Import Emitter EmitterInvariants EmitterScenario EmitterProofs.

Lemma wrap64_nonneg (z : Z) : 0 <= wrap64 z.
Proof. unfold wrap64. apply Z.mod_pos_bound. lia. Qed.

Lemma wrap64_small (z : Z) : 0 <= z < 2 ^ 64 -> wrap64 z = z.
Proof. intros. unfold wrap64. by apply Z.mod_small. Qed.

Lemma wrap64_add (a b : Z) : wrap64 (wrap64 a + wrap64 b) = wrap64 (a + b).
Proof. unfold wrap64. by rewrite <- Zplus_mod. Qed.

Lemma wrapInt64_small (z : Z) : - 2 ^ 63 <= z < 2 ^ 63 -> wrapInt64 z = z.
Proof. intros. unfold wrapInt64. rewrite Z.mod_small; lia. Qed.

(** A property kept by every step of a [fold_left] is kept by the fold. *)
Lemma fold_left_kept {A B} (P : A -> Prop) (Q : B -> Prop) (f : A -> B -> A)
    (l : list B) :
  (∀ a b, Q b -> P a -> P (f a b)) ->
  (∀ b, b ∈ l -> Q b) ->
  ∀ a, P a -> P (fold_left f l a).
Proof.
  intros Hstep. induction l as [|b l IH]; intros Hl a Ha; simpl; [done|].
  apply IH; [intros x Hx; apply Hl; by right|].
  apply Hstep; [apply Hl; by left | done].
Qed.

Section Packing.

Variables MaxGasPowerUsed MaxEventSize : Z.
Variable CalcSize : Event -> Z.
Variable gasPower : GasPowerConfig.

(** X13. [maxGasPowerToUse] never returns more than the ceiling
    MaxGasPowerUsed; it returns 0 when GasPowerLeft is at most
    NoTxsThreshold, the smaller of the smoothed value and the ceiling up to
    GasPowerControlThreshold, and the ceiling above it. *)
Theorem maxGasPowerToUse_bounds (smoothed : Z) (e : Event) :
  0 <= MaxGasPowerUsed ->
  maxGasPowerToUse MaxGasPowerUsed gasPower smoothed e <= MaxGasPowerUsed
  ∧ (GasPowerLeft (header e) <= NoTxsThreshold gasPower ->
     maxGasPowerToUse MaxGasPowerUsed gasPower smoothed e = 0)
  ∧ (NoTxsThreshold gasPower < GasPowerLeft (header e) ->
     GasPowerLeft (header e) <= GasPowerControlThreshold gasPower ->
     maxGasPowerToUse MaxGasPowerUsed gasPower smoothed e
     = Z.min smoothed MaxGasPowerUsed)
  ∧ (NoTxsThreshold gasPower < GasPowerLeft (header e) ->
     GasPowerControlThreshold gasPower < GasPowerLeft (header e) ->
     maxGasPowerToUse MaxGasPowerUsed gasPower smoothed e = MaxGasPowerUsed).
Proof.
  intros Hmax. unfold maxGasPowerToUse.
  destruct (Z.leb_spec (GasPowerLeft (header e)) (NoTxsThreshold gasPower));
    destruct (Z.leb_spec (GasPowerLeft (header e)) (GasPowerControlThreshold gasPower));
    destruct (Z.ltb_spec MaxGasPowerUsed smoothed); repeat split; intros; lia.
Qed.

Lemma packTx_total (maxGasUsed : Z) (txs : list Transaction) (e : Event)
    (tx : Transaction) :
  gasTotal (packTx maxGasUsed txs e tx) = gasTotal e.
Proof.
  unfold packTx. destruct (fits maxGasUsed e tx); [|done].
  unfold gasTotal. simpl. rewrite wrap64_add. f_equal. lia.
Qed.

Lemma pack_total (maxGasUsed : Z) (poolTxs : list (list Transaction)) (e : Event) :
  gasTotal (pack maxGasUsed e poolTxs) = gasTotal e.
Proof.
  unfold pack.
  apply (fold_left_kept (λ x, gasTotal x = gasTotal e) (λ _, True)); [|done..].
  intros a txs _ Ha. unfold packGroup.
  apply (fold_left_kept (λ x, gasTotal x = gasTotal e) (λ _, True)); [|done..].
  intros b tx _ Hb. by rewrite packTx_total.
Qed.

Lemma spill_total (fuel : nat) :
  ∀ e e', spill MaxEventSize CalcSize fuel e = Ok e' -> gasTotal e' = gasTotal e.
Proof.
  induction fuel as [|fuel IH]; intros e e' Hrun; simpl in Hrun; [discriminate|].
  destruct (oversized MaxEventSize CalcSize e); [|by simplify_eq].
  destruct (Transactions e !! _) as [tx|]; [|discriminate].
  rewrite (IH _ _ Hrun). unfold gasTotal, spillOne, refundTx. simpl.
  rewrite wrap64_add. f_equal. lia.
Qed.

(** X14. [addTxs] only moves gas power between GasPowerUsed and
    GasPowerLeft: their sum, as a [uint64], is the same before and after,
    whatever the pool holds and however much is spilled. *)
Theorem addTxs_keeps_gas_total (fuel : nat) (pending : option (list (list Transaction)))
    (smoothed : Z) (e e' : Event) :
  addTxs MaxGasPowerUsed MaxEventSize CalcSize gasPower fuel pending smoothed e = Ok e' ->
  gasTotal e' = gasTotal e.
Proof.
  unfold addTxs. destruct pending as [poolTxs|]; [|by intros [= ->]].
  intros Hrun. rewrite (spill_total _ _ _ Hrun). apply pack_total.
Qed.

Lemma pack_capped (maxGasUsed : Z) (poolTxs : list (list Transaction)) (e : Event) :
  maxGasUsed <= 0 -> pack maxGasUsed e poolTxs = e.
Proof.
  intros Hcap. unfold pack.
  apply (fold_left_kept (λ x, x = e) (λ _, True)); [|done..].
  intros a txs _ ->. unfold packGroup.
  apply (fold_left_kept (λ x, x = e) (λ _, True)); [|done..].
  intros b tx _ ->. unfold packTx, fits.
  destruct (Z.ltb_spec (wrap64 (GasPowerUsed (header e) + Gas tx)) maxGasUsed) as [Hlt|_].
  - pose proof (wrap64_nonneg (GasPowerUsed (header e) + Gas tx)). lia.
  - by rewrite andb_false_r.
Qed.

(** X15. With GasPowerLeft at most NoTxsThreshold no pending transaction is
    packed and no gas is charged: [addTxs] is then the spill loop run on the
    event as it came. *)
Theorem addTxs_low_power (fuel : nat) (poolTxs : list (list Transaction))
    (smoothed : Z) (e : Event) :
  GasPowerLeft (header e) <= NoTxsThreshold gasPower ->
  pack (maxGasPowerToUse MaxGasPowerUsed gasPower smoothed e) e poolTxs = e
  ∧ addTxs MaxGasPowerUsed MaxEventSize CalcSize gasPower fuel (Some poolTxs) smoothed e
    = spill MaxEventSize CalcSize fuel e.
Proof.
  intros Hlow.
  assert (pack (maxGasPowerToUse MaxGasPowerUsed gasPower smoothed e) e poolTxs = e) as Hp.
  { apply pack_capped. unfold maxGasPowerToUse.
    destruct (Z.leb_spec (GasPowerLeft (header e)) (NoTxsThreshold gasPower)); lia. }
  split; [done|]. unfold addTxs. by rewrite Hp.
Qed.

(** What the packing loop keeps true of the event it builds from [e0]. *)
Lemma packTx_budget (maxGasUsed : Z) (txs : list Transaction) (e0 e : Event)
    (tx : Transaction) :
  0 <= Gas tx ->
  inRange e
  ∧ GasPowerUsed (header e) + GasPowerLeft (header e)
    = GasPowerUsed (header e0) + GasPowerLeft (header e0)
  ∧ GasPowerUsed (header e0) <= GasPowerUsed (header e)
  ∧ (GasPowerUsed (header e) = GasPowerUsed (header e0)
     ∨ GasPowerUsed (header e) < maxGasUsed)
  ∧ (0 < GasPowerLeft (header e0) -> 0 < GasPowerLeft (header e)) ->
  let e' := packTx maxGasUsed txs e tx in
  inRange e'
  ∧ GasPowerUsed (header e') + GasPowerLeft (header e')
    = GasPowerUsed (header e0) + GasPowerLeft (header e0)
  ∧ GasPowerUsed (header e0) <= GasPowerUsed (header e')
  ∧ (GasPowerUsed (header e') = GasPowerUsed (header e0)
     ∨ GasPowerUsed (header e') < maxGasUsed)
  ∧ (0 < GasPowerLeft (header e0) -> 0 < GasPowerLeft (header e')).
Proof.
  intros Hg ((Hu & Hl & Hs) & Hsum & Hle & Hcap & Hpos). unfold packTx, fits.
  destruct (Z.ltb_spec (Gas tx) (GasPowerLeft (header e))) as [Hfit|Hno]; simpl;
    [|unfold inRange; auto 10].
  rewrite (wrap64_small (GasPowerUsed (header e) + Gas tx)) by lia.
  destruct (Z.ltb_spec (GasPowerUsed (header e) + Gas tx) maxGasUsed) as [Hlt|Hge]; simpl;
    [|unfold inRange; auto 10].
  rewrite (wrap64_small (GasPowerLeft (header e) - Gas tx)) by lia.
  unfold inRange. simpl. repeat split; lia.
Qed.

(** X16. For [uint64] gas fields whose sum fits, and a pool of nonnegative
    gas limits, the packing loop charges transactions without wrapping:
    the sum of used and left power stays the same, GasPowerUsed does not
    decrease and, once anything is charged, is below the cap;
    GasPowerLeft does not increase and stays positive if it was. *)
Theorem pack_within_budget (maxGasUsed : Z) (poolTxs : list (list Transaction))
    (e : Event) :
  inRange e ->
  (∀ tx, pooled poolTxs tx -> 0 <= Gas tx) ->
  let e' := pack maxGasUsed e poolTxs in
  inRange e'
  ∧ GasPowerUsed (header e') + GasPowerLeft (header e')
    = GasPowerUsed (header e) + GasPowerLeft (header e)
  ∧ GasPowerUsed (header e) <= GasPowerUsed (header e')
  ∧ GasPowerLeft (header e') <= GasPowerLeft (header e)
  ∧ (GasPowerUsed (header e') = GasPowerUsed (header e)
     ∨ GasPowerUsed (header e') < maxGasUsed)
  ∧ (0 < GasPowerLeft (header e) -> 0 < GasPowerLeft (header e')).
Proof.
  intros Hin Hgas.
  set (P := λ x : Event,
    inRange x
    ∧ GasPowerUsed (header x) + GasPowerLeft (header x)
      = GasPowerUsed (header e) + GasPowerLeft (header e)
    ∧ GasPowerUsed (header e) <= GasPowerUsed (header x)
    ∧ (GasPowerUsed (header x) = GasPowerUsed (header e)
       ∨ GasPowerUsed (header x) < maxGasUsed)
    ∧ (0 < GasPowerLeft (header e) -> 0 < GasPowerLeft (header x))).
  assert (P (pack maxGasUsed e poolTxs)) as (H1 & H2 & H3 & H4 & H5).
  { unfold pack.
    apply (fold_left_kept P (λ txs, ∀ tx, tx ∈ txs -> 0 <= Gas tx)).
    - intros a txs Htxs Ha. unfold packGroup.
      assert (∀ l, (∀ tx, tx ∈ l -> 0 <= Gas tx) ->
                P (fold_left (packTx maxGasUsed txs) l a)) as Hgroup.
      { intros l Hl. apply (fold_left_kept P (λ tx, 0 <= Gas tx)); [|done..].
        intros b tx Htx Hb. by apply (packTx_budget maxGasUsed txs e b tx). }
      by apply Hgroup.
    - intros txs Htxs tx Htx. apply Hgas. by exists txs.
    - unfold P. split; [done|]. split; [done|]. split; [lia|]. split; [by left | done]. }
  cbv zeta. repeat (split; [done|]). split; [lia|]. done.
Qed.

(** X17. Every transaction of the event [addTxs] returns was in the event
    before or is one of the pending transactions; the transactions the event
    had stay in front, in their order, unless spilled. *)
Theorem addTxs_transactions_from_pool (fuel : nat) (poolTxs : list (list Transaction))
    (smoothed : Z) (e e' : Event) :
  addTxs MaxGasPowerUsed MaxEventSize CalcSize gasPower fuel (Some poolTxs) smoothed e
    = Ok e' ->
  (∃ packed removed,
     Transactions e ++ packed = Transactions e' ++ removed
     ∧ ∀ tx, tx ∈ packed -> pooled poolTxs tx)
  ∧ ∀ tx, tx ∈ Transactions e' -> tx ∈ Transactions e ∨ pooled poolTxs tx.
Proof.
  unfold addTxs. intros Hrun.
  set (maxGasUsed := maxGasPowerToUse MaxGasPowerUsed gasPower smoothed e) in *.
  assert (∀ l : list (list Transaction), (∀ txs, txs ∈ l -> txs ∈ poolTxs) ->
            ∀ a packed, Transactions a = Transactions e ++ packed ->
            (∀ tx, tx ∈ packed -> pooled poolTxs tx) ->
            ∃ packed', Transactions (fold_left (packGroup maxGasUsed) l a)
                       = Transactions e ++ packed'
              ∧ ∀ tx, tx ∈ packed' -> pooled poolTxs tx) as Hpack.
  { induction l as [|txs l IH]; intros Hl a packed Ha Hp; simpl; [eauto|].
    apply IH with (packed := drop (length (Transactions e))
                               (Transactions (packGroup maxGasUsed a txs))).
    - intros x Hx. apply Hl. by right.
    - unfold packGroup.
      assert (∀ l2 b, (∃ k, Transactions b = Transactions e ++ k) ->
                ∃ k, Transactions (fold_left (packTx maxGasUsed txs) l2 b)
                     = Transactions e ++ k) as Hg.
      { induction l2 as [|tx l2 IH2]; intros b Hb; simpl; [done|].
        apply IH2. unfold packTx. destruct (fits maxGasUsed b tx); [|done].
        destruct Hb as [k Hk]. exists (k ++ txs). simpl. by rewrite Hk, app_assoc. }
      destruct (Hg txs a) as [k ->]; [eauto|]. by rewrite drop_app_length.
    - unfold packGroup.
      assert (∀ l2 b k, Transactions b = Transactions e ++ k ->
                (∀ tx, tx ∈ k -> pooled poolTxs tx) ->
                ∀ tx, tx ∈ drop (length (Transactions e))
                            (Transactions (fold_left (packTx maxGasUsed txs) l2 b)) ->
                      pooled poolTxs tx) as Hg.
      { induction l2 as [|t l2 IH2]; intros b k Hb Hk tx; simpl.
        - rewrite Hb, drop_app_length. apply Hk.
        - unfold packTx at 2. destruct (fits maxGasUsed b t); [|by apply (IH2 b k)].
          apply (IH2 _ (k ++ txs)); [simpl; by rewrite Hb, app_assoc|].
          intros x [Hx|Hx]%elem_of_app; [auto|].
          exists txs. split; [apply Hl; by left | done]. }
      by apply (Hg txs a packed). }
  destruct (Hpack poolTxs (λ _ H, H) e [] (eq_sym (app_nil_r _)))
    as (packed & Hpacked & Hfrom).
  { intros tx Htx. by apply elem_of_nil in Htx. }
  fold (pack maxGasUsed e poolTxs) in Hpacked.
  assert (∀ n x x', spill MaxEventSize CalcSize n x = Ok x' ->
            ∃ removed, Transactions x = Transactions x' ++ removed) as Hspill.
  { induction n as [|n IH]; intros x x' Hx; simpl in Hx; [discriminate|].
    destruct (oversized MaxEventSize CalcSize x) eqn:Hover.
    - destruct (oversized_snoc _ _ x Hover) as (txs & tx & Htxs & Hone & Hlast).
      rewrite Hlast, Hone in Hx. destruct (IH _ _ Hx) as [removed Hrem].
      simpl in Hrem. exists (removed ++ [tx]). by rewrite Htxs, Hrem, app_assoc.
    - simplify_eq. exists []. by rewrite app_nil_r. }
  destruct (Hspill _ _ _ Hrun) as [removed Hrem]. rewrite Hpacked in Hrem.
  split; [by exists packed, removed|].
  intros tx Htx.
  assert (tx ∈ Transactions e ++ packed) as [?|?]%elem_of_app; auto.
  rewrite Hrem. apply elem_of_app. by left.
Qed.

(** X24. When the pool was read, [addTxs] returns the packed event with
    transactions removed from the tail of the packed list, one per round:
    the event returned is no larger than MaxEventSize or has no transaction
    left, every event before it in the loop was larger than MaxEventSize
    (the loop stops as soon as it may), and each removed transaction has
    had its gas subtracted from GasPowerUsed and added to GasPowerLeft in
    [uint64] arithmetic, the last transaction first.  The subtraction and
    the addition are the plain ones when the gas does not exceed
    GasPowerUsed and the sum stays below 2^64. *)
Theorem addTxs_spills_tail (fuel : nat) (poolTxs : list (list Transaction))
    (smoothed : Z) (e : Event) :
  let packed := pack (maxGasPowerToUse MaxGasPowerUsed gasPower smoothed e) e poolTxs in
  let refund := λ (tx : Transaction) (h : EventHeaderData),
    mkHeader (wrap64 (GasPowerUsed h - Gas tx)) (wrap64 (GasPowerLeft h + Gas tx)) in
  (length (Transactions packed) < fuel)%nat ->
  (∃ e' removed,
     addTxs MaxGasPowerUsed MaxEventSize CalcSize gasPower fuel (Some poolTxs) smoothed e
       = Ok e'
     ∧ (CalcSize e' <= MaxEventSize ∨ Transactions e' = [])
     ∧ Transactions packed = Transactions e' ++ removed
     ∧ header e' = foldr refund (header packed) removed
     ∧ ∀ r1 r2, removed = r1 ++ r2 -> r1 ≠ [] ->
         MaxEventSize
         < CalcSize (mkEvent (foldr refund (header packed) r2) (Transactions e' ++ r1)))
  ∧ (∀ n x txs tx, MaxEventSize < CalcSize x ->
       Transactions x = txs ++ [tx] ->
       spill MaxEventSize CalcSize (S n) x
       = spill MaxEventSize CalcSize n (mkEvent (refund tx (header x)) txs))
  ∧ (∀ n x, CalcSize x <= MaxEventSize ∨ Transactions x = [] ->
       spill MaxEventSize CalcSize (S n) x = Ok x)
  ∧ (∀ tx h, 0 <= Gas tx <= GasPowerUsed h -> GasPowerUsed h < 2 ^ 64 ->
       0 <= GasPowerLeft h -> GasPowerLeft h + Gas tx < 2 ^ 64 ->
       refund tx h = mkHeader (GasPowerUsed h - Gas tx) (GasPowerLeft h + Gas tx)).
Proof.
  intros packed refund Hfuel. split; [|split; [|split]].
  - unfold addTxs.
    destruct (spill_spec MaxEventSize CalcSize fuel packed Hfuel)
      as (e' & removed & Hrun & Hstop & Hkept & Hhdr & Hmin).
    exists e', removed. split; [done|].
    split; [by apply oversized_false|]. split; [done|]. split; [done|].
    intros r1 r2 Hsplit Hr1. by apply (oversized_true MaxEventSize CalcSize), Hmin.
  - intros n x txs tx Hbig Htxs. apply spill_next; [|done].
    apply oversized_true. split; [done|]. rewrite Htxs. by destruct txs.
  - intros n x Hstop. by apply spill_here, oversized_false.
  - apply refundTx_exact.
Qed.

End Packing.

Section Pacing.

Variable gasPower : GasPowerConfig.
Variable config : EmitterConfig.

(** X18. An event with more power left than both NoTxsThreshold and
    EmergencyThreshold is always allowed, whatever time has passed and
    whether or not there is a self-parent. *)
Theorem isAllowedToEmit_healthy (elapsed : Z) (e : Event)
    (selfParent : option EventHeaderData) :
  NoTxsThreshold gasPower < GasPowerLeft (header e) ->
  EmergencyThreshold gasPower < GasPowerLeft (header e) ->
  isAllowedToEmit gasPower config elapsed e selfParent = Ok true.
Proof.
  intros Hno Hem. unfold isAllowedToEmit.
  destruct (Z.leb_spec (GasPowerLeft (header e)) (NoTxsThreshold gasPower)); [lia|].
  simpl. destruct (Z.leb_spec (GasPowerLeft (header e)) (EmergencyThreshold gasPower));
    [lia | done].
Qed.

(** X19. At or below NoTxsThreshold (a nonzero one), an event is held back
    as long as less time than the adjusted interval has passed, whatever
    its self-parent is. *)
Theorem isAllowedToEmit_held_back (elapsed : Z) (e : Event)
    (selfParent : option EventHeaderData) :
  GasPowerLeft (header e) <= NoTxsThreshold gasPower ->
  wrapInt64 (NoTxsThreshold gasPower) ≠ 0 ->
  elapsed < adjustedEmitInterval gasPower config e ->
  isAllowedToEmit gasPower config elapsed e selfParent = Ok false.
Proof.
  intros Hlow Hnz Hel. unfold isAllowedToEmit.
  destruct (Z.leb_spec (GasPowerLeft (header e)) (NoTxsThreshold gasPower)); [|lia].
  apply Z.eqb_neq in Hnz. rewrite Hnz. simpl.
  by destruct (Z.ltb_spec elapsed (adjustedEmitInterval gasPower config e)); [|lia].
Qed.

(** X20. At or below EmergencyThreshold, an event with less power left than
    its self-parent is never allowed (as long as the pacing step has a
    nonzero NoTxsThreshold to divide by when it runs). *)
Theorem isAllowedToEmit_power_decreasing (elapsed : Z) (e : Event)
    (parent : EventHeaderData) :
  GasPowerLeft (header e) <= EmergencyThreshold gasPower ->
  GasPowerLeft (header e) < GasPowerLeft parent ->
  (GasPowerLeft (header e) <= NoTxsThreshold gasPower ->
   wrapInt64 (NoTxsThreshold gasPower) ≠ 0) ->
  isAllowedToEmit gasPower config elapsed e (Some parent) = Ok false.
Proof.
  intros Hem Hdec Hdiv. unfold isAllowedToEmit.
  assert ((GasPowerLeft (header e) >=? GasPowerLeft parent) = false) as Hge.
  { rewrite Z.geb_leb. apply Z.leb_gt. lia. }
  destruct (Z.leb_spec (GasPowerLeft (header e)) (EmergencyThreshold gasPower)); [|lia].
  destruct (Z.leb_spec (GasPowerLeft (header e)) (NoTxsThreshold gasPower)) as [Hle|Hgt].
  - apply Hdiv in Hle. apply Z.eqb_neq in Hle. rewrite Hle. simpl.
    destruct (elapsed <? adjustedEmitInterval gasPower config e); [done|].
    by rewrite Hge.
  - simpl. by rewrite Hge.
Qed.

(** X21. Without a self-parent, an event at or below EmergencyThreshold
    that the pacing step lets through makes [isAllowedToEmit] dereference
    the nil self-parent (for the warning it logs) instead of returning
    false. *)
Theorem isAllowedToEmit_no_self_parent (elapsed : Z) (e : Event) :
  GasPowerLeft (header e) <= EmergencyThreshold gasPower ->
  (NoTxsThreshold gasPower < GasPowerLeft (header e)
   ∨ (wrapInt64 (NoTxsThreshold gasPower) ≠ 0
      ∧ adjustedEmitInterval gasPower config e <= elapsed)) ->
  isAllowedToEmit gasPower config elapsed e None = Panic NilDeref.
Proof.
  intros Hem Hpace. unfold isAllowedToEmit.
  destruct (Z.leb_spec (GasPowerLeft (header e)) (EmergencyThreshold gasPower)); [|lia].
  destruct (Z.leb_spec (GasPowerLeft (header e)) (NoTxsThreshold gasPower)) as [Hle|Hgt].
  - destruct Hpace as [Hlt | [Hnz Hint]]; [lia|].
    apply Z.eqb_neq in Hnz. rewrite Hnz. simpl.
    apply Z.ltb_ge in Hint. by rewrite Hint.
  - done.
Qed.

(** X22. With NoTxsThreshold zero and no power left, the pacing step
    divides by zero, whatever time has passed and whatever the self-parent
    is. *)
Theorem isAllowedToEmit_divides_by_zero (elapsed : Z) (e : Event)
    (selfParent : option EventHeaderData) :
  NoTxsThreshold gasPower = 0 ->
  GasPowerLeft (header e) <= 0 ->
  isAllowedToEmit gasPower config elapsed e selfParent = Panic DivideByZero.
Proof.
  intros Hno Hleft. unfold isAllowedToEmit. rewrite Hno.
  by destruct (Z.leb_spec (GasPowerLeft (header e)) 0); [|lia].
Qed.

Lemma adjustedEmitInterval_eq (e : Event) :
  0 <= MinEmitInterval config <= MaxEmitInterval config ->
  MaxEmitInterval config < 2 ^ 63 ->
  0 <= GasPowerLeft (header e) <= NoTxsThreshold gasPower ->
  0 < NoTxsThreshold gasPower < 2 ^ 63 ->
  (MaxEmitInterval config - MinEmitInterval config) * GasPowerLeft (header e) < 2 ^ 63 ->
  adjustedEmitInterval gasPower config e
  = MaxEmitInterval config
    - (MaxEmitInterval config - MinEmitInterval config) * GasPowerLeft (header e)
      / NoTxsThreshold gasPower
  ∧ 0 <= (MaxEmitInterval config - MinEmitInterval config) * GasPowerLeft (header e)
         / NoTxsThreshold gasPower
      <= MaxEmitInterval config - MinEmitInterval config.
Proof.
  intros Hmm Hmax Hleft Hthr Hprod. unfold adjustedEmitInterval.
  set (span := MaxEmitInterval config - MinEmitInterval config) in *.
  set (left := GasPowerLeft (header e)) in *.
  set (thr := NoTxsThreshold gasPower) in *.
  assert (0 <= span * left) as Hnn by nia.
  assert (0 <= span * left / thr <= span) as Hq.
  { split; [apply Z.div_pos; lia|].
    apply Z.div_le_upper_bound; [lia|]. nia. }
  rewrite (wrapInt64_small span) by lia.
  rewrite (wrapInt64_small left) by lia.
  rewrite (wrapInt64_small (span * left)) by lia.
  rewrite (wrapInt64_small thr) by lia.
  rewrite Z.quot_div_nonneg by lia.
  rewrite (wrapInt64_small (span * left / thr)) by lia.
  rewrite wrapInt64_small by lia. done.
Qed.

(** X23. For intervals and powers that do not overflow a duration, the
    adjusted interval lies between MinEmitInterval and MaxEmitInterval: it is
    MaxEmitInterval at no power, MinEmitInterval at NoTxsThreshold, and does
    not grow with the power left. *)
Theorem adjustedEmitInterval_bounds (e e2 : Event) :
  0 <= MinEmitInterval config <= MaxEmitInterval config ->
  MaxEmitInterval config < 2 ^ 63 ->
  0 < NoTxsThreshold gasPower < 2 ^ 63 ->
  0 <= GasPowerLeft (header e) <= GasPowerLeft (header e2) ->
  GasPowerLeft (header e2) <= NoTxsThreshold gasPower ->
  (MaxEmitInterval config - MinEmitInterval config) * GasPowerLeft (header e2) < 2 ^ 63 ->
  MinEmitInterval config <= adjustedEmitInterval gasPower config e2
  ∧ adjustedEmitInterval gasPower config e2 <= adjustedEmitInterval gasPower config e
  ∧ adjustedEmitInterval gasPower config e <= MaxEmitInterval config
  ∧ (GasPowerLeft (header e) = 0 ->
     adjustedEmitInterval gasPower config e = MaxEmitInterval config)
  ∧ (GasPowerLeft (header e2) = NoTxsThreshold gasPower ->
     adjustedEmitInterval gasPower config e2 = MinEmitInterval config).
Proof.
  intros Hmm Hmax Hthr Hl Hl2 Hprod.
  destruct (adjustedEmitInterval_eq e2) as [-> Hq2]; [lia..|].
  destruct (adjustedEmitInterval_eq e) as [-> Hq]; [lia | lia | lia | lia | nia |].
  split; [lia|]. split.
  { apply Z.sub_le_mono_l. apply Z.div_le_mono; [lia | nia]. }
  split; [lia|]. split.
  - intros ->. rewrite Z.mul_0_r, Z.div_0_l by lia. lia.
  - intros ->. rewrite Z.div_mul by lia. lia.
Qed.

End Pacing.

(** ** The properties on the examples *)

Lemma maxGasPowerToUse_bounds_witness :
  0 <= 1000
  ∧ maxGasPowerToUse 1000 pacing 400 (mkEvent (mkHeader 0 500) []) = Z.min 400 1000.
Proof.
  split; [lia|].
  apply (maxGasPowerToUse_bounds 1000 pacing 400 (mkEvent (mkHeader 0 500) []));
    [lia | vm_compute; reflexivity | vm_compute; discriminate].
Defined.

Lemma addTxs_keeps_gas_total_witness :
  addTxs 1000 1000 size100 healthy 20 (Some oneSender) 0 budget
  = Ok (mkEvent (mkHeader 18446744073709551016 1600) (concat oneSender ++ concat oneSender))
  ∧ gasTotal (mkEvent (mkHeader 18446744073709551016 1600)
                (concat oneSender ++ concat oneSender)) = gasTotal budget.
Proof.
  split; [by vm_compute|].
  apply (addTxs_keeps_gas_total 1000 1000 size100 healthy 20 (Some oneSender) 0 budget).
  by vm_compute.
Defined.

Lemma addTxs_low_power_witness :
  GasPowerLeft (header (mkEvent (mkHeader 0 50) [])) <= NoTxsThreshold pacing
  ∧ pack (maxGasPowerToUse 1000 pacing 400 (mkEvent (mkHeader 0 50) []))
         (mkEvent (mkHeader 0 50) []) oneSender
    = mkEvent (mkHeader 0 50) [].
Proof.
  split; [vm_compute; discriminate|].
  apply (addTxs_low_power 1000 1 noSize pacing 1 oneSender 400 (mkEvent (mkHeader 0 50) [])).
  vm_compute; discriminate.
Defined.

Lemma fiveSenders_gas (tx : Transaction) : pooled fiveSenders tx -> 0 <= Gas tx.
Proof.
  intros (txs & Htxs & Htx). unfold fiveSenders in Htxs.
  repeat (apply elem_of_cons in Htxs as [->|Htxs];
          [apply list_elem_of_singleton in Htx as ->; simpl; lia|]).
  by apply elem_of_nil in Htxs.
Qed.

Lemma pack_within_budget_witness :
  inRange budget
  ∧ GasPowerUsed (header (pack 1000 budget fiveSenders))
    + GasPowerLeft (header (pack 1000 budget fiveSenders)) = 0 + 1000
  ∧ 0 < GasPowerLeft (header (pack 1000 budget fiveSenders)).
Proof.
  assert (inRange budget) as Hin by (unfold inRange; simpl; lia).
  split; [exact Hin|].
  destruct (pack_within_budget 1000 fiveSenders budget Hin fiveSenders_gas)
    as (_ & Hsum & _ & _ & _ & Hpos).
  split; [exact Hsum|]. apply Hpos. simpl. lia.
Defined.

Lemma addTxs_transactions_from_pool_witness :
  addTxs 1000 200 size100 healthy 4 (Some fiveSenders) 0 budget
  = Ok (mkEvent (mkHeader 600 400) [tx300 1; tx300 2])
  ∧ ∀ tx, tx ∈ [tx300 1; tx300 2] -> tx ∈ Transactions budget ∨ pooled fiveSenders tx.
Proof.
  split; [by vm_compute|].
  apply (addTxs_transactions_from_pool 1000 200 size100 healthy 4 fiveSenders 0 budget
           (mkEvent (mkHeader 600 400) [tx300 1; tx300 2])).
  by vm_compute.
Defined.

Lemma isAllowedToEmit_healthy_witness :
  NoTxsThreshold pacing < 500 ∧ EmergencyThreshold pacing < 500
  ∧ isAllowedToEmit pacing intervals 0 (mkEvent (mkHeader 0 500) []) None = Ok true.
Proof.
  split; [by vm_compute|]. split; [by vm_compute|].
  apply (isAllowedToEmit_healthy pacing intervals 0 (mkEvent (mkHeader 0 500) []) None);
    by vm_compute.
Defined.

Lemma isAllowedToEmit_held_back_witness :
  GasPowerLeft (header atEmergency) <= NoTxsThreshold pacing
  ∧ 0 < adjustedEmitInterval pacing intervals atEmergency
  ∧ isAllowedToEmit pacing intervals 0 atEmergency None = Ok false.
Proof.
  split; [vm_compute; discriminate|]. split; [by vm_compute|].
  apply (isAllowedToEmit_held_back pacing intervals 0 atEmergency None);
    [vm_compute; discriminate | by vm_compute | by vm_compute].
Defined.

Lemma isAllowedToEmit_power_decreasing_witness :
  GasPowerLeft (header atEmergency) <= EmergencyThreshold pacing
  ∧ GasPowerLeft (header atEmergency) < GasPowerLeft (mkHeader 0 50)
  ∧ isAllowedToEmit pacing intervals 910 atEmergency (Some (mkHeader 0 50)) = Ok false.
Proof.
  split; [vm_compute; discriminate|]. split; [by vm_compute|].
  apply (isAllowedToEmit_power_decreasing pacing intervals 910 atEmergency (mkHeader 0 50));
    [vm_compute; discriminate | by vm_compute | intros _; by vm_compute].
Defined.

Lemma isAllowedToEmit_no_self_parent_witness :
  GasPowerLeft (header atEmergency) <= EmergencyThreshold pacing
  ∧ adjustedEmitInterval pacing intervals atEmergency <= 910
  ∧ isAllowedToEmit pacing intervals 910 atEmergency None = Panic NilDeref.
Proof.
  split; [vm_compute; discriminate|]. split; [vm_compute; discriminate|].
  apply (isAllowedToEmit_no_self_parent pacing intervals 910 atEmergency);
    [vm_compute; discriminate|].
  right. split; [by vm_compute | vm_compute; discriminate].
Defined.

Lemma isAllowedToEmit_divides_by_zero_witness :
  NoTxsThreshold healthy = 0
  ∧ isAllowedToEmit healthy intervals 5000 (mkEvent (mkHeader 0 0) []) (Some (mkHeader 0 0))
    = Panic DivideByZero.
Proof.
  split; [reflexivity|].
  apply (isAllowedToEmit_divides_by_zero healthy intervals 5000
           (mkEvent (mkHeader 0 0) []) (Some (mkHeader 0 0)));
    [reflexivity | vm_compute; discriminate].
Defined.

Lemma adjustedEmitInterval_bounds_witness :
  adjustedEmitInterval pacing intervals (mkEvent (mkHeader 0 0) []) = 1000
  ∧ adjustedEmitInterval pacing intervals (mkEvent (mkHeader 0 100) []) = 100.
Proof.
  destruct (adjustedEmitInterval_bounds pacing intervals
              (mkEvent (mkHeader 0 0) []) (mkEvent (mkHeader 0 100) []))
    as (_ & _ & _ & H0 & H1); simpl; [lia..|].
  split; [apply H0 | apply H1]; reflexivity.
Defined.

Lemma addTxs_spills_tail_witness :
  (length (Transactions (pack (maxGasPowerToUse 1000 healthy 0 budget) budget fiveSenders)) < 4)%nat
  ∧ ∃ e' removed,
      addTxs 1000 200 size100 healthy 4 (Some fiveSenders) 0 budget = Ok e'
      ∧ (size100 e' <= 200 ∨ Transactions e' = [])
      ∧ [tx300 1; tx300 2; tx300 3] = Transactions e' ++ removed
      ∧ header e'
        = foldr (λ tx h, mkHeader (wrap64 (GasPowerUsed h - Gas tx))
                                  (wrap64 (GasPowerLeft h + Gas tx)))
            (mkHeader 900 100) removed.
Proof.
  split; [vm_compute; lia|].
  destruct (addTxs_spills_tail 1000 200 size100 healthy 4 fiveSenders 0 budget)
    as [(e' & removed & Hrun & Hstop & Hkept & Hhdr & _) _]; [vm_compute; lia|].
  exists e', removed. split; [exact Hrun|]. split; [exact Hstop|].
  split; [exact Hkept | exact Hhdr].
Defined.

End EmitterExtra.
